(** * A shallow embedding of [hephaistos/pipeline.py]

    The pipeline scheduler ([PipelineScheduler]), its worker bodies,
    [DynamicTask.onBatchFinished] and the naming and parameter surface of
    [Pipeline], translated from the Python source.  GPU work, the driver
    timelines and the concurrently running worker threads are the
    environment: where the code observes them, the embedding takes their
    behaviour as an argument. *)

From Stdlib Require Import ZArith Ascii String.
From stdpp Require Import base gmap strings pretty list.

Open Scope string_scope.
Open Scope nat_scope.
Open Scope list_scope.
#[local] Set Warnings "-register-all".

(* ------------------------------------------------------------------ *)
(** ** Python values and exceptions *)

(** The Python objects a task is built from.  A dict is identified by its
    object id: the scheduler never looks inside the parameter dicts. *)
Inductive pyval : Type :=
| PyNone
| PyInt (z : Z)
| PyStr (s : string)
| PyDict (oid : nat)
| PyTuple (items : list pyval).

(** An exception, split by the class it derives from: [Exc] is an instance
    of [Exception] (ValueError, RuntimeError, ...), [BaseExc] derives from
    [BaseException] only (SystemExit, KeyboardInterrupt, GeneratorExit). *)
Inductive pyexc : Type :=
| Exc (cls : string)
| BaseExc (cls : string).

Definition ValueError : pyexc := Exc "ValueError".

(** [warnings.warn] calls, by the place that emits them. *)
Inductive warning : Type :=
| WSkipTask (pipeName : string)
| WPrepareExc (n : nat)
| WProcessExc (n : nat)
| WNoStage (stage : string).

(** [try: ... except Exception as ex: warnings.warn(...)] around a call
    whose outcome is [r] ([None]: it returned normally).  Returns the
    warnings emitted and the exception that leaves the block. *)
Definition try_except_Exception (r : option pyexc) (w : warning)
  : list warning * option pyexc :=
  match r with
  | None => ([], None)
  | Some (Exc _) => ([w], None)
  | Some (BaseExc c) => ([], Some (BaseExc c))
  end.

(* ------------------------------------------------------------------ *)
(** ** [_unpackTask] *)

(** [_unpackTask]: the four accepted task shapes; [None] is the
    [ValueError("invalid task format")]. *)
Definition _unpackTask (task : pyval) : option (string * pyval * pyval) :=
  match task with
  | PyDict _ => Some ("", task, PyNone)
  | PyTuple [i1; i2] =>
      match i1, i2 with
      | PyStr s, PyDict _ => Some (s, i2, PyNone)
      | PyDict _, _ => Some ("", i1, i2)
      | _, _ => None
      end
  | PyTuple [i1; i2; i3] =>
      match i1, i2 with
      | PyStr s, PyDict _ => Some (s, i2, i3)
      | _, _ => None
      end
  | _ => None
  end.

(* ------------------------------------------------------------------ *)
(** ** Scheduler state *)

(** [self._pipeline]: a single [Pipeline] or a dict of named ones. *)
Inductive pipelines : Type :=
| SinglePipeline
| PipelineDict (names : list string).

(** The pipeline a task resolved to. *)
Inductive pref : Type :=
| PSingle
| PNamed (name : string).

Inductive timeline : Type :=
| TPipeline
| TUpdate
| TProcess.

(** Calls on the submission builder: [builder.WaitFor(tl, v)] and
    [builder.And(pipeline.getSubroutine(slot))]. *)
Inductive bop : Type :=
| WaitFor (tl : timeline) (v : nat)
| AndSub (p : pref) (slot : nat).

(** [beginSequence(self._pipelineTimeline, start)] followed by the calls
    made on it. *)
Definition builder : Type := (nat * list bop)%type.

(** The scheduler object.  [self._updateQueue] is one FIFO queue; it is
    kept as the items the update worker has been told about by
    [self._updateWorker.run] ([updReleased], at the front) followed by the
    items put by the running [schedule] call ([updHeld]). *)
Record Sched : Type := mkSched {
  destroyed : bool;
  queueSize : nat;
  totalTasks : nat;
  pipeline : pipelines;
  hasProcessFn : bool;
  updReleased : list (pref * pyval);
  updHeld : list (pref * pyval);
  userArgs : list pyval;
  updTarget : nat;
  procTarget : nat;
  procCount : nat;
  submissions : list builder;
  warns : list warning
}.

Definition qsize (s : Sched) : nat := length (updReleased s) + length (updHeld s).

Definition sched_warn (s : Sched) (w : warning) : Sched :=
  mkSched (destroyed s) (queueSize s) (totalTasks s) (pipeline s) (hasProcessFn s)
    (updReleased s) (updHeld s) (userArgs s) (updTarget s) (procTarget s)
    (procCount s) (submissions s) (warns s ++ [w]).

(** The update worker thread, running concurrently, takes [k] items it has
    been told about off the front of the queue. *)
Definition sched_drain (k : nat) (s : Sched) : Sched :=
  mkSched (destroyed s) (queueSize s) (totalTasks s) (pipeline s) (hasProcessFn s)
    (drop k (updReleased s)) (updHeld s) (userArgs s) (updTarget s) (procTarget s)
    (procCount s) (submissions s) (warns s).

(** [self._updateQueue.put(item)] once there is room. *)
Definition sched_put (it : pref * pyval) (s : Sched) : Sched :=
  mkSched (destroyed s) (queueSize s) (totalTasks s) (pipeline s) (hasProcessFn s)
    (updReleased s) (updHeld s ++ [it]) (userArgs s) (updTarget s) (procTarget s)
    (procCount s) (submissions s) (warns s).

(** [self._userArgsQueue.put(args)]. *)
Definition sched_putArgs (a : pyval) (s : Sched) : Sched :=
  mkSched (destroyed s) (queueSize s) (totalTasks s) (pipeline s) (hasProcessFn s)
    (updReleased s) (updHeld s) (userArgs s ++ [a]) (updTarget s) (procTarget s)
    (procCount s) (submissions s) (warns s).

(** [self._totalTasks += 1]. *)
Definition sched_incTotal (s : Sched) : Sched :=
  mkSched (destroyed s) (queueSize s) (S (totalTasks s)) (pipeline s) (hasProcessFn s)
    (updReleased s) (updHeld s) (userArgs s) (updTarget s) (procTarget s)
    (procCount s) (submissions s) (warns s).

(** [builder.Submit()], then [self._updateWorker.run(n)] and, when there
    is a process worker, [self._processWorker.run(n)]. *)
Definition sched_submit (b : builder) (n : nat) (s : Sched) : Sched :=
  mkSched (destroyed s) (queueSize s) (totalTasks s) (pipeline s) (hasProcessFn s)
    (updReleased s ++ updHeld s) [] (userArgs s) (updTarget s + n)
    (if hasProcessFn s then procTarget s + n else procTarget s)
    (procCount s) (submissions s ++ [b]) (warns s).

(** [self._destroyed = True]. *)
Definition sched_setDestroyed (s : Sched) : Sched :=
  mkSched true (queueSize s) (totalTasks s) (pipeline s) (hasProcessFn s)
    (updReleased s) (updHeld s) (userArgs s) (updTarget s) (procTarget s)
    (procCount s) (submissions s) (warns s).

(* ------------------------------------------------------------------ *)
(** ** [PipelineScheduler.schedule] *)

(** The pipeline lookup of [schedule]: for a single pipeline only the empty
    name is accepted, for a dict the name must be one of its keys. *)
Definition resolve (p : pipelines) (pipeName : string) : option pref :=
  match p with
  | SinglePipeline => if String.eqb pipeName "" then Some PSingle else None
  | PipelineDict names =>
      if existsb (String.eqb pipeName) names then Some (PNamed pipeName) else None
  end.

(** State of the [for task in tasks] loop: [n], [builder], the scheduler,
    and the number of [put] attempts so far (which indexes the
    environment's choices). *)
Record LoopSt : Type := mkLoop {
  ls_n : nat;
  ls_builder : option builder;
  ls_sched : Sched;
  ls_attempt : nat
}.

(** How one iteration of the loop ends. *)
Inductive flow : Type :=
| Continue (l : LoopSt)
| Break (l : LoopSt)
| Raise (e : pyexc) (l : LoopSt)
| Block.

(** One iteration of the loop of [schedule].  [drainAt k] is how many
    items the concurrently running update worker has taken off the queue
    before the [k]-th [put] attempt decides; when the queue is still full,
    a [put] with a timeout raises [Full] (caught: [break]) and a [put]
    without one blocks. *)
Definition scheduleStep (drainAt : nat -> nat) (timeout : option nat)
    (l : LoopSt) (task : pyval) : flow :=
  match _unpackTask task with
  | None => Raise ValueError l
  | Some (pipeName, params, args) =>
      let s := ls_sched l in
      match resolve (pipeline s) pipeName with
      | None =>
          Continue (mkLoop (ls_n l) (ls_builder l)
                      (sched_warn s (WSkipTask pipeName)) (ls_attempt l))
      | Some p =>
          if (0 <? queueSize s) && (queueSize s <? ls_n l) then Break l else
          let s1 := sched_drain (drainAt (ls_attempt l)) s in
          let att := S (ls_attempt l) in
          if (queueSize s1 =? 0) || (qsize s1 <? queueSize s1) then
            let s2 := sched_put (p, params) s1 in
            let s3 := if hasProcessFn s2 then sched_putArgs args s2 else s2 in
            let t := totalTasks s3 in
            let b0 := match ls_builder l with
                      | None => (t, [])
                      | Some b => b
                      end in
            let ops := b0.2 ++ [WaitFor TPipeline t] in
            let ops := ops ++ [WaitFor TUpdate (t + 1)] in
            let ops := if hasProcessFn s3 && (2 <=? t)
                       then ops ++ [WaitFor TProcess (t - 1)] else ops in
            let ops := ops ++ [AndSub p (t mod 2)] in
            Continue (mkLoop (S (ls_n l)) (Some (b0.1, ops)) (sched_incTotal s3) att)
          else
            match timeout with
            | Some _ => Break (mkLoop (ls_n l) (ls_builder l) s1 att)
            | None => Block
            end
      end
  end.

Fixpoint scheduleLoop (drainAt : nat -> nat) (timeout : option nat)
    (l : LoopSt) (tasks : list pyval) : flow :=
  match tasks with
  | [] => Continue l
  | t :: ts =>
      match scheduleStep drainAt timeout l t with
      | Continue l' => scheduleLoop drainAt timeout l' ts
      | other => other
      end
  end.

(** How a call of [schedule] ends: it returns [(n, submission)], it
    raises, or it never returns. *)
Inductive outcome : Type :=
| Returned (n : nat) (sub : option builder) (s : Sched)
| Raised (e : pyexc) (s : Sched)
| Diverges.

(** The code after the loop. *)
Definition scheduleFinish (l : LoopSt) : outcome :=
  let s := ls_sched l in
  if ls_n l =? 0 then Returned 0 None s
  else match ls_builder l with
       | None => Raised (Exc "AssertionError") s
       | Some b => Returned (ls_n l) (Some b) (sched_submit b (ls_n l) s)
       end.

Definition schedule (s : Sched) (tasks : list pyval) (drainAt : nat -> nat)
    (timeout : option nat) : outcome :=
  if destroyed s then Raised (Exc "RuntimeError") s else
  match scheduleLoop drainAt timeout (mkLoop 0 None s 0) tasks with
  | Continue l | Break l => scheduleFinish l
  | Raise e l => Raised e (ls_sched l)
  | Block => Diverges
  end.

(** A sequence of [schedule] calls, each with its own environment and
    timeout; [None] as soon as one of them does not return normally,
    otherwise the final state and the [n_submitted] of every call. *)
Fixpoint scheduleCalls (s : Sched)
    (calls : list (list pyval * (nat -> nat) * option nat))
  : option (Sched * list nat) :=
  match calls with
  | [] => Some (s, [])
  | (tasks, drainAt, timeout) :: rest =>
      match schedule s tasks drainAt timeout with
      | Returned n _ s' =>
          match scheduleCalls s' rest with
          | Some (s'', ns) => Some (s'', n :: ns)
          | None => None
          end
      | _ => None
      end
  end.

(* ------------------------------------------------------------------ *)
(** ** [wait], [waitTimeout], [tasksFinished], [destroy] *)

(** [PipelineScheduler.wait]: the timeline waits it performs. *)
Definition wait (s : Sched) (task : option nat) : list (timeline * nat) :=
  if destroyed s then [] else
  let t := match task with None => totalTasks s | Some t => t end in
  if hasProcessFn s then [(TProcess, t)] else [(TPipeline, t)].

(** [PipelineScheduler.waitTimeout]; [tlWaitTimeout tl v ns] is what the
    driver's [Timeline.waitTimeout(v, ns)] of timeline [tl] returns. *)
Definition waitTimeout (s : Sched) (task : option nat) (ns : nat)
    (tlWaitTimeout : timeline -> nat -> nat -> bool)
  : bool * list (timeline * nat) :=
  if destroyed s then (true, []) else
  let t := match task with None => totalTasks s | Some t => t end in
  if hasProcessFn s then (tlWaitTimeout TProcess t ns, [(TProcess, t)])
  else (tlWaitTimeout TPipeline t ns, [(TPipeline, t)]).

(** [PipelineScheduler.tasksFinished]; [pipelineValue] is the current value
    of the pipeline timeline, advanced by the GPU. *)
Definition tasksFinished (s : Sched) (pipelineValue : nat) : nat :=
  if destroyed s then 0 else
  if hasProcessFn s then procCount s else pipelineValue.

(** What [destroy] does besides setting the flag. *)
Inductive action : Type :=
| AWait (tl : timeline) (v : nat)
| AStopWorker (tl : timeline)
| ADestroyTimeline (tl : timeline).

(** [PipelineScheduler.destroy]. *)
Definition destroy (s : Sched) : list action * Sched :=
  (map (fun '(tl, v) => AWait tl v) (wait s None)
   ++ [AStopWorker TUpdate]
   ++ (if hasProcessFn s then [AStopWorker TProcess] else [])
   ++ [ADestroyTimeline TUpdate; ADestroyTimeline TPipeline]
   ++ (if hasProcessFn s then [ADestroyTimeline TProcess] else []),
   sched_setDestroyed s).

(* ------------------------------------------------------------------ *)
(** ** Worker bodies *)

(** What one run of a worker body did: the timeline waits, the warnings,
    the timeline value it set, and the exception that left it. *)
Record bodyRes : Type := mkBody {
  b_waits : list (timeline * nat);
  b_warns : list warning;
  b_set : option (timeline * nat);
  b_raised : option pyexc
}.

(** [PipelineScheduler._update(n)], after [self._updateQueue.get] returned
    an item.  [setParamsRes] is the outcome of [pipeline.setParams] on the task's params
    and [updateRes] the outcome of [pipeline.update(n % 2)], which calls the
    stages' [_finishParams]. *)
Definition update_body (n : nat) (setParamsRes updateRes : option pyexc) : bodyRes :=
  match setParamsRes with
  | Some e => mkBody [] [] None (Some e)
  | None =>
      let waits := if 2 <=? n then [(TPipeline, n - 1)] else [] in
      let '(ws, esc) := try_except_Exception updateRes (WPrepareExc n) in
      match esc with
      | Some e => mkBody waits ws None (Some e)
      | None => mkBody waits ws (Some (TUpdate, n + 1)) None
      end
  end.

(** [PipelineScheduler._process(n)], after [self._userArgsQueue.get]
    returned the task's user argument; [processRes] is the outcome of
    [self._processFn(n % 2, n, args)]. *)
Definition process_body (n : nat) (processRes : option pyexc) : bodyRes :=
  let waits := [(TPipeline, n + 1)] in
  let '(ws, esc) := try_except_Exception processRes (WProcessExc n) in
  match esc with
  | Some e => mkBody waits ws None (Some e)
  | None => mkBody waits ws (Some (TProcess, n + 1)) None
  end.

(* ------------------------------------------------------------------ *)
(** ** [DynamicTask.onBatchFinished] *)

(** The state of a [DynamicTask]: [self._remaining], whether
    [self._finishedEvent] is set, and how often [onTaskFinished] has been
    called. *)
Record DTask : Type := mkDT {
  remaining : Z;
  finishedEvent : bool;
  taskFinishedCalls : nat
}.

(** [DynamicTask.onBatchFinished]; [processBatch] is the int that
    [self.processBatch(config)] returns and [onTaskFinishedRes] the outcome
    of [self.onTaskFinished()] when it is called. *)
Definition onBatchFinished (t : DTask) (processBatch : Z)
    (onTaskFinishedRes : option pyexc) : DTask * (Z + pyexc) :=
  let r := (remaining t - 1)%Z in
  let n := processBatch in
  let r := (r + n)%Z in
  if Z.eqb r 0 then
    match onTaskFinishedRes with
    | None => (mkDT r true (S (taskFinishedCalls t)), inl n)
    | Some e => (mkDT r (finishedEvent t) (S (taskFinishedCalls t)), inr e)
    end
  else (mkDT r (finishedEvent t) (taskFinishedCalls t), inl n).

(* ------------------------------------------------------------------ *)
(** ** Stages and [Pipeline]: names and parameters *)

(** [s in l] for a list of strings. *)
Definition mem (s : string) (l : list string) : bool := existsb (String.eqb s) l.

(** [name.startswith("_")]. *)
Definition is_private (f : string) : bool :=
  match f with
  | String c _ => Ascii.eqb c "_"%char
  | EmptyString => false
  end.

(** What a [PipelineStage] declares: its class-level [name], its [extra]
    parameter names and the field names of its parameter structures
    ([self._params]). *)
Record StageDecl : Type := mkStage {
  st_name : string;
  st_extra : list string;
  st_params : list string
}.

(** [self._fields = frozenset(extra | self._params.keys())]. *)
Definition st_fields (d : StageDecl) : list string :=
  remove_dups (st_extra d ++ st_params d).

(** [self._public]: the fields not starting with an underscore. *)
Definition st_public (d : StageDecl) : list string :=
  List.filter (fun f => negb (is_private f)) (st_fields d).

(** Stage objects are numbered; [decl i] is what stage [i] declares and a
    [Store] holds every stage's current parameter values (the ctypes
    fields of [self._local], and the attributes behind the [extra]
    properties). *)
Definition Store : Type := nat -> string -> pyval.

Definition store_set (vals : Store) (id : nat) (name : string) (v : pyval) : Store :=
  fun i f => if (i =? id) && String.eqb f name then v else vals i f.

Section Stage.
Variable decl : nat -> StageDecl.

(** [PipelineStage.getParam]; [None] is the [ValueError].  The value of a
    declared name is read from the store: [getattr] on an extra whose
    property is missing or whose getter raises is not modelled. *)
Definition getParam (id : nat) (vals : Store) (name : string) : option pyval :=
  if mem name (st_extra (decl id)) then Some (vals id name)
  else if mem name (st_params (decl id)) then Some (vals id name)
  else None.

(** [PipelineStage.getParams]: [{name: self.getParam(name) for name in self.fields}]. *)
Definition stage_getParams (id : nat) (vals : Store) : list (string * pyval) :=
  flat_map (fun f => match getParam id vals f with
                     | Some v => [(f, v)]
                     | None => []
                     end) (st_public (decl id)).

(** [PipelineStage.setParam].  The value of a declared name is written to
    the store as given: an extra's property setter that raises, or a
    ctypes field that rejects the value, is not modelled. *)
Definition setParam (id : nat) (name : string) (v : pyval) (vals : Store) : Store :=
  if negb (mem name (st_fields (decl id))) then vals
  else if mem name (st_extra (decl id)) then store_set vals id name v
  else if mem name (st_params (decl id)) then store_set vals id name v
  else vals.

End Stage.

(** A pipeline's [self._stageList]: the stages with their unique names. *)
Record Pipeline : Type := mkPipeline {
  stageList : list (string * nat)
}.

(** [self._stageDict], filled by [self._stageDict[name] = stage] in list
    order. *)
Definition stageDict (p : Pipeline) : gmap string nat :=
  foldl (fun m '(n, id) => <[n := id]> m) ∅ (stageList p).

(** An element of the [stages] argument: a bare stage or a [(name, stage)]
    tuple. *)
Inductive stageArg : Type :=
| Bare (id : nat)
| Named (name : string) (id : nat).

(** A Python dict kept in insertion order. *)
Fixpoint alookup {A} (k : string) (d : list (string * A)) : option A :=
  match d with
  | [] => None
  | (k', v) :: d' => if String.eqb k k' then Some v else alookup k d'
  end.

(** [d[k] = v]: replaced in place when present, appended otherwise. *)
Definition dict_set {A} (k : string) (v : A) (d : list (string * A)) : list (string * A) :=
  if existsb (fun kv => String.eqb k kv.1) d
  then map (fun kv => if String.eqb k kv.1 then (kv.1, v) else kv) d
  else d ++ [(k, v)].

(** A dict built from a sequence of key/value pairs (a dict comprehension). *)
Definition dict_of {A} (l : list (string * A)) : list (string * A) :=
  foldl (fun d kv => dict_set kv.1 kv.2 d) [] l.

(** [repr] of a [dict[str, int]], for keys that Python prints in single
    quotes without escapes, e.g. [{'stage': 2}]. *)
Definition counter_repr (c : list (string * nat)) : string :=
  "{" +:+ String.concat ", " (map (fun kv => "'" +:+ kv.1 +:+ "': " +:+ pretty kv.2) c)
  +:+ "}".

Section PipelineInit.
Variable decl : nat -> StageDecl.

(** The naming loop of [Pipeline.__init__]:
<<
    if name in name_counter:
        name_counter[name] += 1
        name = f"{stage.name}{name_counter}"
    else:
        name_counter[name] = 1
>> *)
Fixpoint uniqueNames (name_counter : list (string * nat)) (stages : list (string * nat))
  : list (string * nat) :=
  match stages with
  | [] => []
  | (name, id) :: rest =>
      match alookup name name_counter with
      | Some c =>
          let name_counter' := dict_set name (c + 1) name_counter in
          (st_name (decl id) +:+ counter_repr name_counter', id)
            :: uniqueNames name_counter' rest
      | None => (name, id) :: uniqueNames (dict_set name 1 name_counter) rest
      end
  end.

(** [Pipeline.__init__] (the subroutines it bakes are not modelled). *)
Definition Pipeline_init (stages : list stageArg) : Pipeline :=
  mkPipeline (uniqueNames [] (map (fun a => match a with
                                             | Bare id => (st_name (decl id), id)
                                             | Named n id => (n, id)
                                             end) stages)).
End PipelineInit.

(** The [(name, stage)] pair [Pipeline.__init__] makes of an element of
    [stages]: [(stage.name, stage)] for a bare stage. *)
Definition stageArg_entry (decl : nat -> StageDecl) (a : stageArg) : string * nat :=
  match a with
  | Bare id => (st_name (decl id), id)
  | Named n id => (n, id)
  end.

(** The stage object of an element of [stages]. *)
Definition stageArg_id (a : stageArg) : nat :=
  match a with
  | Bare id => id
  | Named _ id => id
  end.

(** ["__" in name]. *)
Fixpoint has_sep (s : string) : bool :=
  match s with
  | EmptyString => false
  | String c rest =>
      match rest with
      | String c' _ => (Ascii.eqb c "_"%char && Ascii.eqb c' "_"%char) || has_sep rest
      | EmptyString => false
      end
  end.

(** [name.split("__", 1)]: [Some (before, after)] at the first ["__"]. *)
Fixpoint split_once (s : string) : option (string * string) :=
  match s with
  | EmptyString => None
  | String c rest =>
      match rest with
      | String c' rest' =>
          if Ascii.eqb c "_"%char && Ascii.eqb c' "_"%char then Some ("", rest')
          else match split_once rest with
               | Some (a, b) => Some (String c a, b)
               | None => None
               end
      | EmptyString => None
      end
  end.

Section PipelineParams.
Variable decl : nat -> StageDecl.

(** [Pipeline.getParams]. *)
Definition pipeline_getParams (p : Pipeline) (vals : Store) : list (string * pyval) :=
  dict_of (flat_map (fun '(sn, id) =>
                       map (fun '(f, v) => (sn +:+ "__" +:+ f, v))
                           (stage_getParams decl id vals))
                    (stageList p)).

(** One iteration of the loop of [Pipeline.setParams]. *)
Definition setParamsKey (p : Pipeline) (st : Store * list warning) (kv : string * pyval)
  : Store * list warning :=
  let '(vals, ws) := st in
  let '(k, v) := kv in
  if has_sep k then
    match split_once k with
    | Some (sn, f) =>
        match stageDict p !! sn with
        | None => (vals, ws ++ [WNoStage sn])
        | Some id => (setParam decl id f v vals, ws)
        end
    | None => (vals, ws)
    end
  else (foldl (fun vs '(_, id) => setParam decl id k v vs) vals (stageList p), ws).

(** [Pipeline.setParams], with its keyword arguments in order. *)
Definition pipeline_setParams (p : Pipeline) (params : list (string * pyval)) (vals : Store)
  : Store * list warning :=
  foldl (setParamsKey p) (vals, []) params.
End PipelineParams.

(** [PipelineScheduler.__init__]: a fresh scheduler. *)
Definition PipelineScheduler_init (p : pipelines) (queueSize : nat) (hasProcessFn : bool)
  : Sched :=
  mkSched false queueSize 0 p hasProcessFn [] [] [] 0 0 0 [] [].

(* ------------------------------------------------------------------ *)
(** ** Running stages: [Pipeline.update], [runAsync], [run],
    [runPipeline], [runPipelineStage] *)

Section PipelineRun.
(** The commands a stage's [run(i)] returns; [stage_run id i] are those of
    stage [id] for configuration [i]. *)
Variable Cmd : Type.
Variable stage_run : nat -> nat -> list Cmd.

(** What running stages does, in order: [stage.update(i)], a
    [beginSequence()...Submit()] of a command list, and [.wait()] on the
    submission.  A stage has two configurations, 0 and 1; what
    [stage.update(i)] and [stage.run(i)] do for another [i] is not
    modelled. *)
Inductive effect : Type :=
| EUpdate (id i : nat)
| ESubmit (cmds : list Cmd)
| EWait.

(** [Pipeline.getSubroutine(i)]: [self._subroutines[i]], one of the two
    subroutines baked by [Pipeline.__init__] from the commands of
    [stage.run(i)] of all stages, in list order; [None] is the
    [IndexError] for [i >= 2]. *)
Definition getSubroutine (p : Pipeline) (i : nat) : option (list Cmd) :=
  if i <? 2 then Some (concat (map (fun '(_, id) => stage_run id i) (stageList p)))
  else None.

(** [Pipeline.update(i)]. *)
Definition pipeline_update (p : Pipeline) (i : nat) : list effect :=
  map (fun '(_, id) => EUpdate id i) (stageList p).

(** [Pipeline.runAsync(i, update=update)]: the effects in order, and the
    exception that leaves it, if any. *)
Definition runAsync (p : Pipeline) (i : nat) (update : bool) : list effect * option pyexc :=
  let ups := if update then pipeline_update p i else [] in
  match getSubroutine p i with
  | Some sub => (ups ++ [ESubmit sub], None)
  | None => (ups, Some (Exc "IndexError"))
  end.

(** [Pipeline.run(i, update=update)]. *)
Definition pipeline_run (p : Pipeline) (i : nat) (update : bool) : list effect * option pyexc :=
  let '(effs, e) := runAsync p i update in
  match e with
  | None => (effs ++ [EWait], None)
  | Some _ => (effs, e)
  end.

(** [runPipeline(stages, i, update=update)]: the loop collects the
    updates it performs and the commands in [cmds]. *)
Definition runPipeline (stages : list stageArg) (i : nat) (update : bool) : list effect :=
  let '(effs, cmds) :=
    foldl (fun '(effs, cmds) a =>
             let id := match a with Bare id => id | Named _ id => id end in
             (effs ++ (if update then [EUpdate id i] else []), cmds ++ stage_run id i))
          ([], []) stages in
  effs ++ [ESubmit cmds; EWait].

(** [runPipelineStage(stage, i, update=update)]. *)
Definition runPipelineStage (id i : nat) (update : bool) : list effect :=
  (if update then [EUpdate id i] else []) ++ [ESubmit (stage_run id i); EWait].
End PipelineRun.

Arguments EUpdate {Cmd} id i.
Arguments ESubmit {Cmd} cmds.
Arguments EWait {Cmd}.
Arguments getSubroutine {Cmd} stage_run p i.
Arguments pipeline_update {Cmd} p i.
Arguments runAsync {Cmd} stage_run p i update.
Arguments pipeline_run {Cmd} stage_run p i update.
Arguments runPipeline {Cmd} stage_run stages i update.
Arguments runPipelineStage {Cmd} stage_run id i update.

(* ------------------------------------------------------------------ *)
(** ** [_CounterWorkerThread] *)

(** Where the worker thread is in [_loop]. *)
Inductive wpc : Type :=
| WTop          (* [if self._isSuspending:] at the head of [while True] *)
| WWait         (* [self._wakeEvent.wait()] *)
| WClear        (* [self._wakeEvent.clear()] *)
| WResume       (* [self._isSuspending = False] *)
| WCheckStop    (* [if self._isStopping: break] *)
| WQuick        (* the unlocked [if self._counter >= self._target:] *)
| WLock         (* [with self._suspendLock:] and the check inside it *)
| WCall         (* [self._fn(self._counter)] and [self._counter += 1] *)
| WDone.        (* the loop was left by [break] *)

(** Where the thread calling [run] and [stop] is.  [run(n)] adds [n] to
    [self._target] ([CIdle] to [CRunLock]), then takes the lock and reads
    [self._isSuspending] ([CRunSet b]), then sets the event when it read
    [True] and releases the lock.  [stop()] sets [self._isStopping]
    ([CStopLock]), sets the event under the lock ([CJoin]) and joins the
    worker ([CStopped]).  Calls of [run] are not concurrent with each other
    (the scheduler makes them from one thread at a time). *)
Inductive cpc : Type :=
| CIdle
| CRunLock
| CRunSet (b : bool)
| CStopLock
| CJoin
| CStopped.

(** The worker object and the two threads' positions.  [lockByCaller] is
    [self._suspendLock] held by the calling thread; the worker's own
    locked block only reads [_counter] and [_target] and writes
    [_isSuspending], so it is one step, taken when the lock is free. *)
Record CW : Type := mkCW {
  cw_wpc : wpc;
  cw_cpc : cpc;
  _isSuspending : bool;
  _isStopping : bool;
  _wakeEvent : bool;
  lockByCaller : bool;
  _counter : nat;
  _target : nat;
  fnCalls : list nat
}.

(** [_CounterWorkerThread.__init__], after [self._thread.start()]. *)
Definition _CounterWorkerThread_init : CW :=
  mkCW WTop CIdle true false false false 0 0 [].

(** One step of the worker thread; [None] when it cannot move (blocked in
    [wait()] on an unset event or on the lock, or finished). *)
Definition worker_step (s : CW) : option CW :=
  let '(mkCW p c susp stop ev lk cnt tgt calls) := s in
  match p with
  | WTop => Some (mkCW (if susp then WWait else WCheckStop) c susp stop ev lk cnt tgt calls)
  | WWait => if ev then Some (mkCW WClear c susp stop ev lk cnt tgt calls) else None
  | WClear => Some (mkCW WResume c susp stop false lk cnt tgt calls)
  | WResume => Some (mkCW WCheckStop c false stop ev lk cnt tgt calls)
  | WCheckStop => Some (mkCW (if stop then WDone else WQuick) c susp stop ev lk cnt tgt calls)
  | WQuick => Some (mkCW (if tgt <=? cnt then WLock else WCall) c susp stop ev lk cnt tgt calls)
  | WLock =>
      if lk then None
      else if tgt <=? cnt then Some (mkCW WTop c true stop ev lk cnt tgt calls)
      else Some (mkCW WCall c susp stop ev lk cnt tgt calls)
  | WCall => Some (mkCW WTop c susp stop ev lk (S cnt) tgt (calls ++ [cnt]))
  | WDone => None
  end.

(** A request of the calling thread: [run(n)] or [stop()]. *)
Inductive req : Type :=
| ReqRun (n : nat)
| ReqStop.

(** One step of the calling thread; the request is only looked at when it
    is idle. *)
Definition caller_step (r : req) (s : CW) : option CW :=
  let '(mkCW p c susp stop ev lk cnt tgt calls) := s in
  match c with
  | CIdle =>
      match r with
      | ReqRun n => Some (mkCW p CRunLock susp stop ev lk cnt (tgt + n) calls)
      | ReqStop => Some (mkCW p CStopLock susp true ev lk cnt tgt calls)
      end
  | CRunLock => Some (mkCW p (CRunSet susp) susp stop ev true cnt tgt calls)
  | CRunSet b => Some (mkCW p CIdle susp stop (b || ev) false cnt tgt calls)
  | CStopLock => Some (mkCW p CJoin susp stop true lk cnt tgt calls)
  | CJoin => match p with
             | WDone => Some (mkCW p CStopped susp stop ev lk cnt tgt calls)
             | _ => None
             end
  | CStopped => None
  end.

Inductive actor : Type :=
| Worker
| Caller (r : req).

Definition cw_step (a : actor) (s : CW) : option CW :=
  match a with
  | Worker => worker_step s
  | Caller r => caller_step r s
  end.

(** An interleaving of the two threads; [None] when a step is not
    possible. *)
Fixpoint cw_run (acts : list actor) (s : CW) : option CW :=
  match acts with
  | [] => Some s
  | a :: rest => match cw_step a s with
                 | Some s' => cw_run rest s'
                 | None => None
                 end
  end.

(** The worker thread alone, for at most [k] steps. *)
Fixpoint worker_run (k : nat) (s : CW) : CW :=
  match k with
  | 0 => s
  | S k' => match worker_step s with
            | Some s' => worker_run k' s'
            | None => s
            end
  end.

(** [worker_step] with the outcome of the calls of [self._fn]:
    [fnRaises j] tells whether [self._fn(j)] raises.  [_loop] has no
    handler around the call, so an exception ends the worker thread before
    [self._counter += 1]: the thread takes no step any more. *)
Definition worker_step_fn (fnRaises : nat -> bool) (s : CW) : option CW :=
  match cw_wpc s with
  | WCall => if fnRaises (_counter s) then None else worker_step s
  | _ => worker_step s
  end.

(** The worker thread alone, for at most [k] steps, with the outcomes
    [fnRaises] of its calls of [self._fn]. *)
Fixpoint worker_run_fn (fnRaises : nat -> bool) (k : nat) (s : CW) : CW :=
  match k with
  | 0 => s
  | S k' => match worker_step_fn fnRaises s with
            | Some s' => worker_run_fn fnRaises k' s'
            | None => s
            end
  end.

(* ------------------------------------------------------------------ *)
(** ** [DynamicTaskScheduler] *)

(** [DynamicTaskScheduler._schedule(task, nBatches)] on the scheduler [s]
    it wraps ([PipelineScheduler(pipeline, processFn=self._process)]).
    [params] is the copy [task.parameters.copy()], [taskPipeline] is
    [task.pipeline] and [task] the task object, passed as user argument;
    [[item] * nBatches] is empty for a negative count. *)
Definition DynamicTaskScheduler__schedule (s : Sched) (params : pyval)
    (taskPipeline : option string) (task : pyval) (nBatches : Z) (drainAt : nat -> nat)
  : outcome :=
  let item := match taskPipeline with
              | None => PyTuple [params; task]
              | Some name => PyTuple [PyStr name; params; task]
              end in
  let batches := repeat item (Z.to_nat nBatches) in
  match schedule s batches drainAt None with
  | Returned n sub s' =>
      if Z.eqb (Z.of_nat n) nBatches then Returned n sub s'
      else Raised (Exc "AssertionError") s'
  | o => o
  end.

(** The fields of [DynamicTaskScheduler] guarded by
    [self._inFlightCounterLock]. *)
Record DTSched : Type := mkDTSched {
  _inFlightCounter : Z;
  _allFinishedEvent : bool
}.

Definition DynamicTaskScheduler_init : DTSched := mkDTSched 0 false.

(** The locked block of [scheduleTasks] for [k] tasks ([scheduleTask] is
    [k = 1]); the [_schedule] calls after it do not touch these fields. *)
Definition scheduleTasks_lock (k : nat) (d : DTSched) : DTSched :=
  mkDTSched (_inFlightCounter d + Z.of_nat k) false.

(** [DynamicTaskScheduler._process(config, batch, args)] for the task [t]
    passed as [args]: the new fields, the task's new state, and how it
    ends: [inl None] when the task finished, [inl (Some k)] when
    [self._schedule(task, k)] is called next, [inr e] when
    [task.onBatchFinished] raised [e]. *)
Definition DynamicTaskScheduler__process (d : DTSched) (t : DTask) (processBatch : Z)
    (onTaskFinishedRes : option pyexc) : DTSched * DTask * (option Z + pyexc) :=
  let '(t', res) := onBatchFinished t processBatch onTaskFinishedRes in
  match res with
  | inr e => (d, t', inr e)
  | inl nNew =>
      if Z.eqb (remaining t') 0 then
        let c := (_inFlightCounter d - 1)%Z in
        (mkDTSched c (if Z.leb c 0 then true else _allFinishedEvent d), t', inl None)
      else (d, t', inl (Some nNew))
  end.

(** What changes the guarded fields: [scheduleTasks] (or [scheduleTask])
    and a run of [_process] for some task state. *)
Inductive dts_op : Type :=
| OScheduleTasks (k : nat)
| OProcess (t : DTask) (processBatch : Z) (onTaskFinishedRes : option pyexc).

Definition dts_step (d : DTSched) (o : dts_op) : DTSched :=
  match o with
  | OScheduleTasks k => scheduleTasks_lock k d
  | OProcess t k r => (DynamicTaskScheduler__process d t k r).1.1
  end.

(* ------------------------------------------------------------------ *)
(** ** What a call of [schedule] accepts *)

(** What the loop of [schedule] does with a task: [Some (pipeline, params,
    args)] when it unpacks and its pipeline is found, [None] when
    [_unpackTask] raises or the task is skipped. *)
Definition accept (p : pipelines) (task : pyval) : option (pref * pyval * pyval) :=
  match _unpackTask task with
  | Some (pipeName, params, args) =>
      match resolve p pipeName with
      | Some r => Some (r, params, args)
      | None => None
      end
  | None => None
  end.

(** The builder calls [schedule] makes for tasks run on the pipelines [ps],
    numbered [t], [t+1], ... *)
Fixpoint task_ops (hasProc : bool) (t : nat) (ps : list pref) : list bop :=
  match ps with
  | [] => []
  | p :: ps' =>
      [WaitFor TPipeline t; WaitFor TUpdate (t + 1)]
      ++ (if hasProc && (2 <=? t) then [WaitFor TProcess (t - 1)] else [])
      ++ [AndSub p (t mod 2)] ++ task_ops hasProc (S t) ps'
  end.

(** The submissions of consecutive calls that accepted the tasks [pss],
    each starting at the index of its first task. *)
Fixpoint submissions_of (hasProc : bool) (t : nat) (pss : list (list pref)) : list builder :=
  match pss with
  | [] => []
  | ps :: pss' => (t, task_ops hasProc t ps) :: submissions_of hasProc (t + length ps) pss'
  end.

(* ================================================================== *)
(** * Properties of the scheduler *)

(** What one run of the loop body, or several, leaves unchanged or changes
    together: no submission, no worker advanced, [totalTasks] and [n]
    grown by the same amount, and the accepted items appended to the
    update queue. *)
Definition loop_inv (l l' : LoopSt) : Prop :=
  submissions (ls_sched l') = submissions (ls_sched l) /\
  updTarget (ls_sched l') = updTarget (ls_sched l) /\
  procTarget (ls_sched l') = procTarget (ls_sched l) /\
  totalTasks (ls_sched l') + ls_n l = totalTasks (ls_sched l) + ls_n l' /\
  (exists acc, updHeld (ls_sched l') = updHeld (ls_sched l) ++ acc /\
               length acc + ls_n l = ls_n l').

Lemma loop_inv_refl l : loop_inv l l.
Proof.
  unfold loop_inv. repeat split; try lia. exists []. rewrite app_nil_r. split; [done|simpl; lia].
Qed.

Lemma loop_inv_trans l1 l2 l3 : loop_inv l1 l2 -> loop_inv l2 l3 -> loop_inv l1 l3.
Proof.
  unfold loop_inv.
  intros (H1 & H2 & H3 & H4 & acc1 & H5 & H6) (G1 & G2 & G3 & G4 & acc2 & G5 & G6).
  repeat split; try congruence; try lia.
  exists (acc1 ++ acc2). rewrite G5, H5, app_assoc. split; [done|].
  rewrite length_app. lia.
Qed.

(** Every way one iteration of the loop can end keeps [loop_inv]. *)
Lemma scheduleStep_inv drainAt timeout l task l' :
  (scheduleStep drainAt timeout l task = Continue l' \/
   scheduleStep drainAt timeout l task = Break l' \/
   exists e, scheduleStep drainAt timeout l task = Raise e l') ->
  loop_inv l l'.
Proof.
  unfold scheduleStep. intros H.
  repeat case_match; destruct H as [H|[H|[? H]]]; simplify_eq/=;
    try apply loop_inv_refl;
    unfold loop_inv; simpl; repeat split; try lia;
    first [ exists []; rewrite app_nil_r; split; [done|simpl; lia]
          | eexists; split; [reflexivity|simpl; lia] ].
Qed.

Lemma scheduleLoop_inv drainAt timeout tasks : forall l l',
  (scheduleLoop drainAt timeout l tasks = Continue l' \/
   scheduleLoop drainAt timeout l tasks = Break l' \/
   exists e, scheduleLoop drainAt timeout l tasks = Raise e l') ->
  loop_inv l l'.
Proof.
  induction tasks as [|t ts IH]; intros l l' H; simpl in H.
  - destruct H as [H|[H|[? H]]]; simplify_eq. apply loop_inv_refl.
  - destruct (scheduleStep drainAt timeout l t) as [l1|l1|e1 l1|] eqn:E.
    + apply loop_inv_trans with l1; [apply (scheduleStep_inv drainAt timeout _ t); auto|].
      apply IH; exact H.
    + destruct H as [H|[H|[? H]]]; simplify_eq.
      apply (scheduleStep_inv drainAt timeout _ t); auto.
    + destruct H as [H|[H|[? H]]]; simplify_eq.
      apply (scheduleStep_inv drainAt timeout _ t); eauto.
    + destruct H as [H|[H|[? H]]]; discriminate.
Qed.

Lemma scheduleLoop_app drainAt timeout xs ys l :
  scheduleLoop drainAt timeout l (xs ++ ys) =
  match scheduleLoop drainAt timeout l xs with
  | Continue l' => scheduleLoop drainAt timeout l' ys
  | o => o
  end.
Proof.
  revert l. induction xs as [|x xs IH]; intros l; simpl; [done|].
  destruct (scheduleStep drainAt timeout l x); auto.
Qed.

(** A call that returns normally adds its [n_submitted] to [totalTasks]. *)
Lemma schedule_returned_total s tasks drainAt timeout n sub s' :
  schedule s tasks drainAt timeout = Returned n sub s' ->
  totalTasks s' = totalTasks s + n.
Proof.
  unfold schedule. destruct (destroyed s); [discriminate|].
  destruct (scheduleLoop drainAt timeout (mkLoop 0 None s 0) tasks) as [l|l|e l|] eqn:E;
    try discriminate.
  - assert (Hi : loop_inv (mkLoop 0 None s 0) l) by (apply (scheduleLoop_inv drainAt timeout tasks); auto).
    destruct Hi as (_ & _ & _ & Ht & _). simpl in Ht.
    unfold scheduleFinish. destruct (ls_n l =? 0) eqn:En.
    + intros H; simplify_eq. apply Nat.eqb_eq in En. lia.
    + destruct (ls_builder l); intros H; simplify_eq; simpl. lia.
  - assert (Hi : loop_inv (mkLoop 0 None s 0) l) by (apply (scheduleLoop_inv drainAt timeout tasks); auto).
    destruct Hi as (_ & _ & _ & Ht & _). simpl in Ht.
    unfold scheduleFinish. destruct (ls_n l =? 0) eqn:En.
    + intros H; simplify_eq. apply Nat.eqb_eq in En. lia.
    + destruct (ls_builder l); intros H; simplify_eq; simpl. lia.
Qed.

Lemma scheduleCalls_total calls : forall s s' ns,
  scheduleCalls s calls = Some (s', ns) ->
  totalTasks s' = totalTasks s + sum_list_with id ns.
Proof.
  induction calls as [|[[tasks drainAt] timeout] rest IH]; intros s s' ns H; simpl in H.
  - simplify_eq. simpl. lia.
  - destruct (schedule s tasks drainAt timeout) as [n sub s1| |] eqn:E; try discriminate.
    destruct (scheduleCalls s1 rest) as [[s2 ns2]|] eqn:E2; try discriminate.
    simplify_eq. apply schedule_returned_total in E. apply IH in E2. simpl. lia.
Qed.

(** The helpers of the loop body keep what they do not touch. *)
Lemma put_path_fields drainAt l p params args :
  let s1 := sched_drain drainAt (ls_sched l) in
  let s2 := sched_put (p, params) s1 in
  let s3 := if hasProcessFn s2 then sched_putArgs args s2 else s2 in
  totalTasks s3 = totalTasks (ls_sched l) /\ hasProcessFn s3 = hasProcessFn (ls_sched l).
Proof. simpl. destruct (hasProcessFn (ls_sched l)) eqn:E; simpl; rewrite ?E; split; reflexivity. Qed.

(** C1: a task accepted at index [n = totalTasks] appends to the builder,
    in order, a wait on the pipeline timeline at [n], a wait on the update
    timeline at [n+1], a wait on the process timeline at [n-1] exactly when
    there is a process function and [n >= 2], and then the subroutine of
    slot [n mod 2] of its pipeline; [totalTasks] becomes [n+1]. *)
Theorem schedule_accepted_task_ops drainAt timeout l task l' :
  scheduleStep drainAt timeout l task = Continue l' ->
  ls_n l' = S (ls_n l) ->
  let s := ls_sched l in
  let n := totalTasks s in
  exists pipeName params args p,
    _unpackTask task = Some (pipeName, params, args) /\
    resolve (pipeline s) pipeName = Some p /\
    totalTasks (ls_sched l') = S n /\
    ls_builder l' =
      Some (match ls_builder l with None => n | Some b => b.1 end,
            match ls_builder l with None => [] | Some b => b.2 end
            ++ [WaitFor TPipeline n; WaitFor TUpdate (n + 1)]
            ++ (if hasProcessFn s && (2 <=? n) then [WaitFor TProcess (n - 1)] else [])
            ++ [AndSub p (n mod 2)]).
Proof.
  intros H Hn. unfold scheduleStep in H. cbv zeta.
  destruct (_unpackTask task) as [[[pipeName params] args]|] eqn:Eu; [|discriminate].
  destruct (resolve (pipeline (ls_sched l)) pipeName) as [p|] eqn:Er.
  2:{ injection H as <-. simpl in Hn. lia. }
  destruct ((0 <? queueSize (ls_sched l)) && (queueSize (ls_sched l) <? ls_n l)); [discriminate|].
  destruct (put_path_fields (drainAt (ls_attempt l)) l p params args) as [Ht Hp].
  simpl in Ht, Hp.
  destruct (_ || _); [|destruct timeout; discriminate].
  injection H as <-. exists pipeName, params, args, p.
  split; [done|]. split; [done|].
  rewrite Ht, Hp. simpl. rewrite Ht. split; [done|].
  destruct (ls_builder l) as [[st ops]|]; simpl;
    match goal with |- context [if ?c then _ else _] => destruct c end;
    rewrite <- ?app_assoc; reflexivity.
Qed.

Lemma schedule_accepted_task_ops_witness :
  scheduleStep (fun _ => 0) None
    (mkLoop 2 (Some (0, [])) (mkSched false 0 2 SinglePipeline true [] [] [] 0 0 0 [] []) 2)
    (PyDict 7)
  = Continue (mkLoop 3 (Some (0, [WaitFor TPipeline 2; WaitFor TUpdate 3;
                                   WaitFor TProcess 1; AndSub PSingle 0]))
                (mkSched false 0 3 SinglePipeline true [] [(PSingle, PyDict 7)] [PyNone]
                   0 0 0 [] []) 3) /\
  exists pipeName params args p,
    _unpackTask (PyDict 7) = Some (pipeName, params, args) /\
    resolve SinglePipeline pipeName = Some p /\
    3 = 3 /\
    Some (0, [WaitFor TPipeline 2; WaitFor TUpdate 3; WaitFor TProcess 1; AndSub PSingle 0])
    = Some (0, [] ++ [WaitFor TPipeline 2; WaitFor TUpdate (2 + 1)]
                  ++ [WaitFor TProcess (2 - 1)] ++ [AndSub p (2 mod 2)]).
Proof.
  split; [reflexivity|].
  exact (schedule_accepted_task_ops (fun _ => 0) None
    (mkLoop 2 (Some (0, [])) (mkSched false 0 2 SinglePipeline true [] [] [] 0 0 0 [] []) 2)
    (PyDict 7) _ eq_refl eq_refl).
Defined.

(** C3: after any sequence of [schedule] calls on a fresh scheduler, all of
    which returned, [totalTasks] is the sum of the [n_submitted] they
    returned. *)
Theorem totalTasks_sum_of_submitted p queueSize hasProc calls s' ns :
  scheduleCalls (PipelineScheduler_init p queueSize hasProc) calls = Some (s', ns) ->
  totalTasks s' = sum_list_with id ns.
Proof. intros H. apply scheduleCalls_total in H. simpl in H. lia. Qed.

Definition demo_calls : list (list pyval * (nat -> nat) * option nat) :=
  [([PyTuple [PyStr "p1"; PyDict 0]; PyTuple [PyStr "p2"; PyDict 1]; PyDict 2],
    (fun _ => 0), None);
   ([PyTuple [PyStr "p1"; PyDict 3; PyInt 5]], (fun _ => 1), Some 10)].

Lemma totalTasks_sum_of_submitted_witness :
  exists s', scheduleCalls (PipelineScheduler_init (PipelineDict ["p1"]) 0 true) demo_calls
             = Some (s', [1; 1]) /\ totalTasks s' = 2.
Proof.
  eexists. split; [vm_compute; reflexivity|].
  apply (totalTasks_sum_of_submitted (PipelineDict ["p1"]) 0 true demo_calls _ [1; 1]).
  vm_compute. reflexivity.
Defined.

(** C8: once [destroy] has run, [wait] touches no timeline for any task
    (scheduled or not, or the default last one), [waitTimeout] returns
    [True] without touching one, and [tasksFinished] is 0. *)
Theorem destroyed_queries (s : Sched) :
  let s' := (destroy s).2 in
  forall (task : option nat) (ns pipelineValue : nat)
         (tlWaitTimeout : timeline -> nat -> nat -> bool),
    wait s' task = [] /\
    waitTimeout s' task ns tlWaitTimeout = (true, []) /\
    tasksFinished s' pipelineValue = 0.
Proof. intros s' task ns pv tlw. subst s'. simpl. repeat split. Qed.

(** C9 fails: an invalid task after the point where the queue is full is
    never unpacked.  A fresh scheduler with [queueSize = 1] and timeout 0:
    the second task finds the queue full, the loop breaks, and [schedule]
    returns [(1, submission)] although the third task is [42]. *)
Lemma schedule_invalid_task_not_reached :
  _unpackTask (PyInt 42) = None /\
  exists s',
    schedule (PipelineScheduler_init SinglePipeline 1 false)
      [PyDict 0; PyDict 1; PyInt 42] (fun _ => 0) (Some 0)
    = Returned 1 (Some (0, [WaitFor TPipeline 0; WaitFor TUpdate 1; AndSub PSingle 0])) s'.
Proof. split; [reflexivity|]. eexists. vm_compute. reflexivity. Qed.

(** C9, as the code does it: when the loop reaches a task that does not
    unpack (every earlier task was skipped or accepted, none ended the loop
    with [break]), [schedule] raises [ValueError]; no submission is made,
    neither worker is advanced, and the state keeps what the earlier tasks
    did: [totalTasks] grew by the number accepted and their items are still
    at the back of the update queue. *)
Theorem schedule_invalid_task_raises s pre bad post drainAt timeout l :
  destroyed s = false ->
  scheduleLoop drainAt timeout (mkLoop 0 None s 0) pre = Continue l ->
  _unpackTask bad = None ->
  schedule s (pre ++ bad :: post) drainAt timeout = Raised ValueError (ls_sched l) /\
  submissions (ls_sched l) = submissions s /\
  updTarget (ls_sched l) = updTarget s /\
  procTarget (ls_sched l) = procTarget s /\
  totalTasks (ls_sched l) = totalTasks s + ls_n l /\
  exists acc, updHeld (ls_sched l) = updHeld s ++ acc /\ length acc = ls_n l.
Proof.
  intros Hd Hl Hb.
  assert (Hi : loop_inv (mkLoop 0 None s 0) l)
    by (apply (scheduleLoop_inv drainAt timeout pre); auto).
  destruct Hi as (H1 & H2 & H3 & H4 & acc & H5 & H6). simpl in *.
  split.
  - unfold schedule. rewrite Hd, scheduleLoop_app, Hl. simpl.
    unfold scheduleStep. rewrite Hb. reflexivity.
  - repeat split; auto; try lia. exists acc. split; [done|lia].
Qed.

Lemma schedule_invalid_task_raises_witness :
  exists l,
    scheduleLoop (fun _ => 0) None (mkLoop 0 None (PipelineScheduler_init SinglePipeline 0 false) 0)
      [PyDict 0; PyTuple [PyStr "other"; PyDict 1]] = Continue l /\
    schedule (PipelineScheduler_init SinglePipeline 0 false)
      ([PyDict 0; PyTuple [PyStr "other"; PyDict 1]] ++ PyInt 42 :: [PyDict 2])
      (fun _ => 0) None = Raised ValueError (ls_sched l) /\
    totalTasks (ls_sched l) = 0 + ls_n l.
Proof.
  eexists. split; [vm_compute; reflexivity|].
  destruct (schedule_invalid_task_raises (PipelineScheduler_init SinglePipeline 0 false)
              [PyDict 0; PyTuple [PyStr "other"; PyDict 1]] (PyInt 42) [PyDict 2]
              (fun _ => 0) None _ eq_refl (ltac:(vm_compute; reflexivity)) eq_refl)
    as (Hr & _ & _ & _ & Ht & _).
  split; [exact Hr | exact Ht].
Defined.

(** C10: with a single pipeline, a task naming any non-empty pipeline is
    skipped with a warning and changes neither [n] nor [totalTasks] (nor
    anything else); a task accepted by the loop names no pipeline. *)
Theorem single_pipeline_named_task_skipped drainAt timeout l task pipeName params args :
  pipeline (ls_sched l) = SinglePipeline ->
  _unpackTask task = Some (pipeName, params, args) ->
  (pipeName <> "" ->
   scheduleStep drainAt timeout l task =
     Continue (mkLoop (ls_n l) (ls_builder l)
                 (sched_warn (ls_sched l) (WSkipTask pipeName)) (ls_attempt l)) /\
   totalTasks (sched_warn (ls_sched l) (WSkipTask pipeName)) = totalTasks (ls_sched l)) /\
  (forall l', scheduleStep drainAt timeout l task = Continue l' ->
              ls_n l' = S (ls_n l) -> pipeName = "").
Proof.
  intros Hp Hu. unfold scheduleStep. rewrite Hu, Hp. simpl. split.
  - intros Hne. apply String.eqb_neq in Hne. rewrite Hne. split; reflexivity.
  - intros l' H Hn. destruct (String.eqb pipeName "") eqn:E.
    + by apply String.eqb_eq.
    + injection H as <-. simpl in Hn. lia.
Qed.

Lemma single_pipeline_named_task_skipped_witness :
  scheduleStep (fun _ => 0) None
    (mkLoop 0 None (PipelineScheduler_init SinglePipeline 0 false) 0)
    (PyTuple [PyStr "p2"; PyDict 1])
  = Continue (mkLoop 0 None
                (sched_warn (PipelineScheduler_init SinglePipeline 0 false) (WSkipTask "p2")) 0).
Proof.
  destruct (single_pipeline_named_task_skipped (fun _ => 0) None
              (mkLoop 0 None (PipelineScheduler_init SinglePipeline 0 false) 0)
              (PyTuple [PyStr "p2"; PyDict 1]) "p2" (PyDict 1) PyNone eq_refl eq_refl)
    as [Hs _].
  apply Hs. discriminate.
Defined.

(* ================================================================== *)
(** * Worker bodies *)

(** C2 fails for exceptions outside [Exception]: [processFn] raising
    [SystemExit] leaves [_process] with the exception and the process
    timeline is not set. *)
Lemma process_body_SystemExit_not_advanced :
  b_set (process_body 0 (Some (BaseExc "SystemExit"))) = None /\
  b_raised (process_body 0 (Some (BaseExc "SystemExit"))) = Some (BaseExc "SystemExit").
Proof. split; reflexivity. Qed.

(** C2, as the code does it: for every task index [n], when
    [pipeline.update(n % 2)] (reached after [pipeline.setParams] returned)
    or [processFn] returns or raises an instance of [Exception], the worker
    body raises nothing, emits a warning exactly when the call raised, and
    sets the update (resp. process) timeline to [n+1]; an exception that
    derives from [BaseException] only is not caught by [except Exception]:
    it leaves the body, which emits no warning and does not set the
    timeline. *)
Theorem worker_bodies_advance_timeline (n : nat) (r : option pyexc) :
  match r with
  | Some (BaseExc c) =>
      b_set (update_body n None r) = None /\
      b_raised (update_body n None r) = Some (BaseExc c) /\
      b_warns (update_body n None r) = [] /\
      b_set (process_body n r) = None /\
      b_raised (process_body n r) = Some (BaseExc c) /\
      b_warns (process_body n r) = []
  | _ =>
      let w := match r with None => false | Some _ => true end in
      b_set (update_body n None r) = Some (TUpdate, n + 1) /\
      b_raised (update_body n None r) = None /\
      b_warns (update_body n None r) = (if w then [WPrepareExc n] else []) /\
      b_set (process_body n r) = Some (TProcess, n + 1) /\
      b_raised (process_body n r) = None /\
      b_warns (process_body n r) = (if w then [WProcessExc n] else [])
  end.
Proof.
  destruct r as [[c|c]|]; simpl; repeat split.
Qed.

(* ================================================================== *)
(** * [DynamicTask.onBatchFinished] *)

(** C7: with [batchesRemaining = r] and [processBatch] returning [k] (and
    [onTaskFinished] returning normally), [onBatchFinished] returns [k],
    leaves [r - 1 + k] batches remaining, and calls [onTaskFinished] and
    sets the finished event exactly when [r - 1 + k = 0]. *)
Theorem onBatchFinished_spec (t : DTask) (k : Z) :
  let '(t', res) := onBatchFinished t k None in
  res = inl k /\
  remaining t' = (remaining t - 1 + k)%Z /\
  ((remaining t - 1 + k)%Z = 0%Z ->
     finishedEvent t' = true /\ taskFinishedCalls t' = S (taskFinishedCalls t)) /\
  ((remaining t - 1 + k)%Z <> 0%Z ->
     finishedEvent t' = finishedEvent t /\ taskFinishedCalls t' = taskFinishedCalls t).
Proof.
  unfold onBatchFinished.
  destruct (Z.eqb_spec (remaining t - 1 + k) 0) as [E|E]; simpl;
    repeat split; intros; auto; lia.
Qed.

(* ================================================================== *)
(** * Stage names of [Pipeline.__init__] *)

(** Three stages of a class whose [name] is ["stage"], passed without
    explicit names. *)
Definition stage_decls (i : nat) : StageDecl := mkStage "stage" [] ["m"; "b"].

(** C4 fails: the suffix is the formatted counter dict, not the count; the
    second and third stages are named ["stage{'stage': 2}"] and
    ["stage{'stage': 3}"] instead of ["stage2"] and ["stage3"]. *)
Theorem Pipeline_init_suffix_is_dict_repr :
  stageList (Pipeline_init stage_decls [Bare 0; Bare 1; Bare 2])
  = [("stage", 0); ("stage{'stage': 2}", 1); ("stage{'stage': 3}", 2)] /\
  map fst (stageList (Pipeline_init stage_decls [Bare 0; Bare 1; Bare 2]))
  <> ["stage"; "stage2"; "stage3"].
Proof. split; [vm_compute; reflexivity | vm_compute; discriminate]. Qed.

(* ================================================================== *)
(** * [Pipeline.setParams] *)

Lemma mem_In x l : mem x l = true <-> In x l.
Proof.
  unfold mem. rewrite existsb_exists. split.
  - intros (y & Hy & E). apply String.eqb_eq in E. subst. exact Hy.
  - intros H. exists x. split; [exact H | apply String.eqb_refl].
Qed.

Lemma mem_fields x d : mem x (st_fields d) = mem x (st_extra d) || mem x (st_params d).
Proof.
  apply Bool.eq_true_iff_eq. rewrite Bool.orb_true_iff, !mem_In.
  unfold st_fields. rewrite <- list_elem_of_In, elem_of_remove_dups, list_elem_of_In.
  rewrite in_app_iff. tauto.
Qed.

(** [setParam] sets the named field of its stage when the stage declares
    it, and changes nothing else. *)
Lemma setParam_spec decl id name v vals i g :
  setParam decl id name v vals i g =
  if (i =? id) && String.eqb g name && mem name (st_fields (decl id)) then v else vals i g.
Proof.
  unfold setParam, store_set. rewrite mem_fields.
  destruct (mem name (st_extra (decl id))), (mem name (st_params (decl id))); simpl;
    destruct (i =? id), (String.eqb g name); reflexivity.
Qed.

Lemma foldl_setParam decl k v (L : list (string * nat)) : forall (vals : Store) i g,
  foldl (fun vs '(_, id) => setParam decl id k v vs) vals L i g =
  if String.eqb g k && mem k (st_fields (decl i)) && existsb (fun e => e.2 =? i) L
  then v else vals i g.
Proof.
  induction L as [|[n id] L IH]; intros vals i g; simpl.
  - rewrite andb_false_r. reflexivity.
  - rewrite IH, setParam_spec.
    destruct (Nat.eqb_spec id i) as [->|Hne].
    + rewrite Nat.eqb_refl.
      destruct (String.eqb g k), (mem k (st_fields (decl i))), (existsb _ L); reflexivity.
    + rewrite (proj2 (Nat.eqb_neq i id)) by congruence.
      destruct (String.eqb g k), (mem k (st_fields (decl i))), (existsb _ L); reflexivity.
Qed.

Lemma split_once_cons c c' r :
  split_once (String c (String c' r)) =
  if Ascii.eqb c "_"%char && Ascii.eqb c' "_"%char then Some ("", r)
  else match split_once (String c' r) with
       | Some (a, b) => Some (String c a, b)
       | None => None
       end.
Proof. reflexivity. Qed.

Lemma has_sep_cons c c' r :
  has_sep (String c (String c' r)) =
  (Ascii.eqb c "_"%char && Ascii.eqb c' "_"%char) || has_sep (String c' r).
Proof. reflexivity. Qed.

(** Where ["__" in name] holds, [name.split("__", 1)] has two parts. *)
Lemma has_sep_split s : has_sep s = true -> exists a b, split_once s = Some (a, b).
Proof.
  induction s as [|c rest IH]; [discriminate|].
  destruct rest as [|c' r]; [discriminate|].
  rewrite has_sep_cons, split_once_cons.
  destruct (Ascii.eqb c "_"%char && Ascii.eqb c' "_"%char).
  - intros _. exists "", r. reflexivity.
  - intros H. cbn [orb] in H. destruct (IH H) as (a & b & E). rewrite E.
    exists (String c a), b. reflexivity.
Qed.

(** C6: one key of [Pipeline.setParams].  A key containing ["__"] is split
    once into [(stage, field)]: when the stage is in the pipeline's dict,
    exactly its field is set (if it declares it; [setParam] ignores
    undeclared fields) and no warning is emitted; otherwise a warning names
    the stage and no value changes.  A key without ["__"] is applied to
    every stage of the pipeline that declares it, every other stage and
    field is left as it was, and no warning is emitted. *)
Theorem setParamsKey_spec decl p (vals : Store) ws k v :
  (has_sep k = true ->
   exists sn f, split_once k = Some (sn, f) /\
     match stageDict p !! sn with
     | Some id =>
         (setParamsKey decl p (vals, ws) (k, v)).2 = ws /\
         forall i g, (setParamsKey decl p (vals, ws) (k, v)).1 i g =
           if (i =? id) && String.eqb g f && mem f (st_fields (decl id)) then v else vals i g
     | None =>
         (setParamsKey decl p (vals, ws) (k, v)).2 = ws ++ [WNoStage sn] /\
         forall i g, (setParamsKey decl p (vals, ws) (k, v)).1 i g = vals i g
     end) /\
  (has_sep k = false ->
   (setParamsKey decl p (vals, ws) (k, v)).2 = ws /\
   forall i g, (setParamsKey decl p (vals, ws) (k, v)).1 i g =
     if String.eqb g k && mem k (st_fields (decl i))
        && existsb (fun e => e.2 =? i) (stageList p)
     then v else vals i g).
Proof.
  split.
  - intros Hs. destruct (has_sep_split k Hs) as (sn & f & Esp).
    exists sn, f. split; [exact Esp|].
    unfold setParamsKey. rewrite Hs, Esp.
    destruct (stageDict p !! sn) as [id|]; simpl; split; auto.
    intros i g. apply setParam_spec.
  - intros Hs. unfold setParamsKey. rewrite Hs. simpl. split; [reflexivity|].
    intros i g. apply foldl_setParam.
Qed.

Definition demo_decl (i : nat) : StageDecl :=
  match i with
  | 0 => mkStage "stage" [] ["m"; "b"; "_dummy"]
  | 1 => mkStage "retrieve" [] []
  | _ => mkStage "stage" [] ["m"]
  end.

Definition demo_pipe : Pipeline :=
  Pipeline_init demo_decl [Bare 0; Bare 1; Named "other" 2].

Lemma setParamsKey_spec_witness :
  (setParamsKey demo_decl demo_pipe (fun _ _ => PyNone, []) ("stage__m", PyInt 3)).1 0 "m"
    = PyInt 3 /\
  (setParamsKey demo_decl demo_pipe (fun _ _ => PyNone, []) ("nostage__m", PyInt 3)).2
    = [WNoStage "nostage"] /\
  (setParamsKey demo_decl demo_pipe (fun _ _ => PyNone, []) ("m", PyInt 3)).1 2 "m"
    = PyInt 3.
Proof.
  destruct (setParamsKey_spec demo_decl demo_pipe (fun _ _ => PyNone) [] "stage__m" (PyInt 3))
    as [H1 _].
  destruct (H1 eq_refl) as (sn & f & E & Hm).
  destruct (setParamsKey_spec demo_decl demo_pipe (fun _ _ => PyNone) [] "nostage__m" (PyInt 3))
    as [H2 _].
  destruct (H2 eq_refl) as (sn2 & f2 & E2 & Hm2).
  destruct (setParamsKey_spec demo_decl demo_pipe (fun _ _ => PyNone) [] "m" (PyInt 3))
    as [_ H3].
  destruct (H3 eq_refl) as [_ Hv3].
  vm_compute in E. injection E as <- <-.
  vm_compute in E2. injection E2 as <- <-.
  split; [|split].
  - assert (Ed : stageDict demo_pipe !! "stage" = Some 0) by (vm_compute; reflexivity).
    rewrite Ed in Hm. destruct Hm as [_ Hv]. rewrite Hv. vm_compute. reflexivity.
  - assert (Ed : stageDict demo_pipe !! "nostage" = None) by (vm_compute; reflexivity).
    rewrite Ed in Hm2. destruct Hm2 as [Hw _]. exact Hw.
  - rewrite Hv3. reflexivity.
Defined.

(* ================================================================== *)
(** * [Pipeline.setParams(Pipeline.getParams())] *)

(** Two stages named ["a"] and ["a_"]: the first has only a private field
    ["_m"], the second a public field ["m"]. *)
Definition rt_decl (i : nat) : StageDecl :=
  match i with
  | 0 => mkStage "stage" [] ["_m"]
  | _ => mkStage "stage" [] ["m"]
  end.

Definition rt_pipe : Pipeline := Pipeline_init rt_decl [Named "a" 0; Named "a_" 1].

Definition rt_vals : Store := fun i _ => PyInt (Z.of_nat i).

(** C5 fails: [getParams] gives [{"a___m": 1}], which [setParams] splits
    into stage ["a"] and field ["_m"]; stage ["a"]'s private field changes
    from 0 to 1. *)
Lemma getParams_setParams_changes_private_field :
  pipeline_getParams rt_decl rt_pipe rt_vals = [("a___m", PyInt 1)] /\
  rt_vals 0 "_m" = PyInt 0 /\
  (pipeline_setParams rt_decl rt_pipe (pipeline_getParams rt_decl rt_pipe rt_vals) rt_vals).1
    0 "_m" = PyInt 1.
Proof. split; [|split]; vm_compute; reflexivity. Qed.

(** A key [stage ++ "__" ++ field] splits back into [stage] and [field]
    when [stage] neither contains ["__"] nor ends in ["_"], that is when
    [stage ++ "_"] contains no ["__"]. *)
Lemma split_key s f :
  has_sep (s +:+ "_") = false -> split_once (s +:+ "__" +:+ f) = Some (s, f).
Proof.
  induction s as [|c s IH]; intros H; [reflexivity|].
  destruct s as [|c0 s0].
  - simpl in H. rewrite orb_false_r in H. simpl. rewrite H. reflexivity.
  - change (has_sep (String c (String c0 (s0 +:+ "_"))) = false) in H.
    rewrite has_sep_cons in H. apply orb_false_iff in H as [H1 H2].
    change (split_once (String c (String c0 (s0 +:+ "__" +:+ f))) = Some (String c (String c0 s0), f)).
    rewrite split_once_cons, H1.
    change (String c0 (s0 +:+ "__" +:+ f)) with (String c0 s0 +:+ "__" +:+ f).
    rewrite IH by exact H2. reflexivity.
Qed.

Lemma has_sep_key s f : has_sep (s +:+ "__" +:+ f) = true.
Proof.
  induction s as [|c s IH]; [reflexivity|].
  destruct s as [|c0 s0].
  - change (has_sep (String c (String "_" (String "_" f))) = true).
    rewrite has_sep_cons, orb_true_iff. right. reflexivity.
  - change (has_sep (String c (String c0 (s0 +:+ "__" +:+ f))) = true).
    rewrite has_sep_cons, orb_true_iff. right. exact IH.
Qed.

(** A dict comprehension keeps, for each key, the last value given for it. *)
Lemma dict_set_In {A} k' (v' : A) d k v :
  In (k, v) (dict_set k' v' d) -> (k = k' /\ v = v') \/ (k <> k' /\ In (k, v) d).
Proof.
  unfold dict_set. destruct (existsb (fun kv => String.eqb k' kv.1) d) eqn:E.
  - intros H. apply in_map_iff in H as ([k0 v0] & Hkv & Hin). simpl in Hkv.
    destruct (String.eqb_spec k' k0) as [->|Hne]; simplify_eq; auto.
  - intros H. apply in_app_or in H as [H|[H|[]]]; [|simplify_eq; auto].
    right. split; [|exact H]. intros Heq. subst k'.
    assert (existsb (fun kv => String.eqb k kv.1) d = true) as E'.
    { apply existsb_exists. exists (k, v). split; [exact H|apply String.eqb_refl]. }
    congruence.
Qed.

Lemma dict_fold_In {A} (L : list (string * A)) : forall d k v,
  In (k, v) (foldl (fun d kv => dict_set kv.1 kv.2 d) d L) ->
  (In (k, v) d /\ ~ In k (map fst L)) \/
  (exists L1 L2, L = L1 ++ (k, v) :: L2 /\ ~ In k (map fst L2)).
Proof.
  induction L as [|[k0 v0] L IH]; intros d k v H; simpl in H.
  - left. split; [exact H|simpl; tauto].
  - destruct (IH _ _ _ H) as [[H1 H2]|(L1 & L2 & -> & H2)].
    + apply dict_set_In in H1 as [[-> ->]|[Hne H1]].
      * right. exists [], L. split; [reflexivity|exact H2].
      * left. split; [exact H1|]. simpl. intros [->|?]; [congruence|tauto].
    + right. exists ((k0, v0) :: L1), L2. split; [reflexivity|exact H2].
Qed.

Lemma dict_of_In {A} (L : list (string * A)) k v :
  In (k, v) (dict_of L) -> exists L1 L2, L = L1 ++ (k, v) :: L2 /\ ~ In k (map fst L2).
Proof.
  unfold dict_of. intros H.
  destruct (dict_fold_In L [] k v H) as [[[] _]|R]; exact R.
Qed.

(** Where an element of a [flat_map] comes from. *)
Lemma flat_map_split {A B} (g : A -> list B) (SL : list A) : forall L1 x L2,
  flat_map g SL = L1 ++ x :: L2 ->
  exists SL1 y SL2 e1 e2,
    SL = SL1 ++ y :: SL2 /\ g y = e1 ++ x :: e2 /\ L2 = e2 ++ flat_map g SL2.
Proof.
  induction SL as [|a SL IH]; intros L1 x L2 H; simpl in H.
  - destruct L1; discriminate.
  - apply app_eq_app in H as (l & [[Ha Hr]|[Ha Hr]]).
    + destruct l as [|y l'].
      * rewrite app_nil_r in Ha. simpl in Hr.
        destruct (IH [] x L2 (eq_sym Hr)) as (SL1 & y & SL2 & e1 & e2 & -> & Hg & ->).
        exists (a :: SL1), y, SL2, e1, e2. auto.
      * simpl in Hr. injection Hr as Hy HL. subst.
        exists [], a, SL, L1, l'. auto.
    + destruct (IH l x L2 Hr) as (SL1 & y & SL2 & e1 & e2 & -> & Hg & ->).
      exists (a :: SL1), y, SL2, e1, e2. auto.
Qed.

Lemma stage_getParams_In decl id vals f v :
  In (f, v) (stage_getParams decl id vals) -> In f (st_public (decl id)) /\ v = vals id f.
Proof.
  unfold stage_getParams. rewrite in_flat_map. intros (f' & Hf & Hin).
  unfold getParam in Hin.
  destruct (mem f' (st_extra (decl id))), (mem f' (st_params (decl id)));
    simpl in Hin; try contradiction; destruct Hin as [Heq|[]]; injection Heq as <- <-; auto.
Qed.

Lemma public_field d f : In f (st_public d) -> is_private f = false /\ In f (st_fields d).
Proof.
  unfold st_public. rewrite filter_In. intros [H1 H2].
  split; [destruct (is_private f); [discriminate|reflexivity] | exact H1].
Qed.

Lemma stage_getParams_complete decl id vals f :
  In f (st_public (decl id)) -> In (f, vals id f) (stage_getParams decl id vals).
Proof.
  intros H. unfold stage_getParams. rewrite in_flat_map. exists f. split; [exact H|].
  apply public_field in H as [_ H]. apply mem_In in H. rewrite mem_fields in H.
  unfold getParam.
  destruct (mem f (st_extra (decl id))), (mem f (st_params (decl id)));
    simpl; try discriminate; left; reflexivity.
Qed.

Lemma not_public_not_field d f :
  is_private f = false -> ~ In f (st_public d) -> mem f (st_fields d) = false.
Proof.
  intros Hp Hn. destruct (mem f (st_fields d)) eqn:E; [|reflexivity].
  exfalso. apply Hn. unfold st_public. apply filter_In. split.
  - apply mem_In. exact E.
  - rewrite Hp. reflexivity.
Qed.

(** What [self._stageDict[name]] holds after the inserts of a list. *)
Lemma foldl_insert_lookup (L : list (string * nat)) : forall (m : gmap string nat) s,
  (foldl (fun m '(n, id) => <[n := id]> m) m L !! s = m !! s /\ forall id, ~ In (s, id) L) \/
  (exists id, foldl (fun m '(n, id) => <[n := id]> m) m L !! s = Some id /\ In (s, id) L).
Proof.
  induction L as [|[n i0] L IH]; intros m s; simpl.
  - left. split; [reflexivity|tauto].
  - destruct (IH (<[n := i0]> m) s) as [[H1 H2]|(id & H1 & H2)].
    + destruct (String.eq_dec n s) as [->|Hne].
      * right. exists i0. rewrite H1, lookup_insert_eq. split; [reflexivity|left; reflexivity].
      * left. rewrite H1, lookup_insert_ne by exact Hne. split; [reflexivity|].
        intros id [Heq|Hin]; [congruence|exact (H2 id Hin)].
    + right. exists id. split; [exact H1|right; exact H2].
Qed.

(** [Pipeline.setParams] leaves the store as it is when every key names a
    stage of the pipeline whose field, if declared, already holds the
    value. *)
Lemma setParams_noop decl p (vals : Store) (D : list (string * pyval)) :
  (forall k v, In (k, v) D ->
     exists sn f id, has_sep k = true /\ split_once k = Some (sn, f) /\
       stageDict p !! sn = Some id /\
       (mem f (st_fields (decl id)) = true -> v = vals id f)) ->
  forall (st : Store), (forall i g, st i g = vals i g) ->
  (foldl (setParamsKey decl p) (st, []) D).2 = [] /\
  forall i g, (foldl (setParamsKey decl p) (st, []) D).1 i g = vals i g.
Proof.
  induction D as [|[k v] D IH]; intros HD st Hst; simpl; [auto|].
  destruct (HD k v (or_introl eq_refl)) as (sn & f & id & Hs & Esp & Eid & Hv).
  unfold setParamsKey at 2. rewrite Hs, Esp, Eid.
  apply IH; [intros k' v' Hin; apply HD; right; exact Hin|].
  intros i g. rewrite setParam_spec.
  destruct (Nat.eqb_spec i id) as [->|]; [|apply Hst].
  destruct (String.eqb_spec g f) as [->|]; [|apply Hst].
  destruct (mem f (st_fields (decl id))) eqn:Em; simpl; [|apply Hst].
  apply Hv. reflexivity.
Qed.

(** C5, as the code does it: when no stage name of the pipeline contains
    ["__"] or ends in ["_"], [Pipeline.setParams(Pipeline.getParams())]
    emits no warning and leaves every stage's parameter values as they
    were. *)
Theorem getParams_setParams_roundtrip decl p (vals : Store) :
  (forall sn id, In (sn, id) (stageList p) -> has_sep (sn +:+ "_") = false) ->
  (pipeline_setParams decl p (pipeline_getParams decl p vals) vals).2 = [] /\
  forall i g, (pipeline_setParams decl p (pipeline_getParams decl p vals) vals).1 i g = vals i g.
Proof.
  intros Hnames. unfold pipeline_setParams. apply setParams_noop; [|reflexivity].
  intros k v Hin. unfold pipeline_getParams in Hin.
  apply dict_of_In in Hin as (L1 & L2 & HL & Hk).
  apply flat_map_split in HL as (SL1 & [sn idA] & SL2 & e1 & e2 & HSL & Hg & HL2).
  assert (Hkv : In (k, v) (map (fun '(f, v) => (sn +:+ "__" +:+ f, v))
                               (stage_getParams decl idA vals))).
  { simpl in Hg. rewrite Hg. apply in_or_app. right. left. reflexivity. }
  apply in_map_iff in Hkv as ([f v'] & Heq & Hf). injection Heq as Hk' Hv'. subst k v'.
  apply stage_getParams_In in Hf as [Hpub ->].
  assert (HsnIn : In (sn, idA) (stageList p)).
  { rewrite HSL. apply in_or_app. right. left. reflexivity. }
  assert (Hd : stageDict p = foldl (fun m '(n, id) => <[n := id]> m)
                               (<[sn := idA]> (foldl (fun m '(n, id) => <[n := id]> m) ∅ SL1)) SL2).
  { unfold stageDict. rewrite HSL, foldl_app. reflexivity. }
  exists sn, f.
  destruct (foldl_insert_lookup SL2
              (<[sn := idA]> (foldl (fun m '(n, id) => <[n := id]> m) ∅ SL1)) sn)
    as [[HA _]|(idB & HB & HinB)].
  - exists idA. split; [apply has_sep_key|]. split; [apply split_key; exact (Hnames _ _ HsnIn)|].
    split; [rewrite Hd, HA; apply lookup_insert_eq|]. auto.
  - exists idB. split; [apply has_sep_key|]. split; [apply split_key; exact (Hnames _ _ HsnIn)|].
    split; [rewrite Hd; exact HB|].
    rewrite not_public_not_field; [discriminate| exact (proj1 (public_field _ _ Hpub))|].
    intros HpubB. apply Hk. rewrite HL2, map_app. apply in_or_app. right.
    apply in_map_iff. exists (sn +:+ "__" +:+ f, vals idB f). split; [reflexivity|].
    apply in_flat_map. exists (sn, idB). split; [exact HinB|].
    apply in_map_iff. exists (f, vals idB f). split; [reflexivity|].
    apply stage_getParams_complete. exact HpubB.
Qed.

Lemma getParams_setParams_roundtrip_witness :
  (pipeline_setParams demo_decl demo_pipe (pipeline_getParams demo_decl demo_pipe rt_vals)
     rt_vals).2 = [].
Proof.
  apply (getParams_setParams_roundtrip demo_decl demo_pipe rt_vals).
  intros sn id Hin. vm_compute in Hin.
  destruct Hin as [Heq|[Heq|[Heq|[]]]]; injection Heq as <- <-; reflexivity.
Defined.

(* ================================================================== *)
(** * More of [PipelineScheduler.schedule] *)

Lemma task_ops_app hp t ps p :
  task_ops hp t (ps ++ [p]) =
  task_ops hp t ps ++
    ([WaitFor TPipeline (t + length ps); WaitFor TUpdate (t + length ps + 1)]
     ++ (if hp && (2 <=? t + length ps) then [WaitFor TProcess (t + length ps - 1)] else [])
     ++ [AndSub p ((t + length ps) mod 2)]).
Proof.
  revert t. induction ps as [|q ps IH]; intros t; simpl.
  - rewrite Nat.add_0_r, ?app_nil_r. reflexivity.
  - rewrite IH. replace (S t + length ps) with (t + S (length ps)) by lia.
    rewrite <- !app_assoc. reflexivity.
Qed.

(** What the loop of a call has done so far, relative to the state [s]
    the call started from: the tasks it accepted ([acc], in order) were
    put on the update queue and, with a process function, their user
    arguments on the argument queue; the builder holds their calls; the
    update worker may have taken items it was told about. *)
Definition trace_inv (s : Sched) (l : LoopSt) (acc : list (pref * pyval * pyval)) : Prop :=
  let s' := ls_sched l in
  length acc = ls_n l /\
  totalTasks s' = totalTasks s + ls_n l /\
  hasProcessFn s' = hasProcessFn s /\ queueSize s' = queueSize s /\
  pipeline s' = pipeline s /\ destroyed s' = destroyed s /\
  submissions s' = submissions s /\ updTarget s' = updTarget s /\
  procTarget s' = procTarget s /\
  (exists k, updReleased s' = drop k (updReleased s)) /\
  updHeld s' = updHeld s ++ map (fun x => (x.1.1, x.1.2)) acc /\
  userArgs s' = userArgs s ++ (if hasProcessFn s then map snd acc else []) /\
  ls_builder l = (if ls_n l =? 0 then None
                  else Some (totalTasks s, task_ops (hasProcessFn s) (totalTasks s)
                                                    (map (fun x => x.1.1) acc))).

Lemma trace_inv_start s : trace_inv s (mkLoop 0 None s 0) [].
Proof.
  unfold trace_inv; simpl. repeat split; try lia; rewrite ?app_nil_r; try reflexivity.
  - exists 0. reflexivity.
  - destruct (hasProcessFn s); rewrite ?app_nil_r; reflexivity.
Qed.

Lemma trace_inv_step s l acc task :
  trace_inv s l acc ->
  forall drainAt timeout,
  match scheduleStep drainAt timeout l task with
  | Continue l' => trace_inv s l' (acc ++ match accept (pipeline s) task with
                                          | Some x => [x] | None => [] end)
  | Break l' => trace_inv s l' acc
  | Raise _ l' => l' = l
  | Block => True
  end.
Proof.
  intros (H1 & H2 & H3 & H4 & H5 & H6 & H7 & H8 & H9 & [k Hk] & H10 & H11 & H12) drainAt timeout.
  unfold scheduleStep, accept.
  destruct (_unpackTask task) as [[[pipeName params] args]|]; [|reflexivity].
  rewrite H5.
  destruct (resolve (pipeline s) pipeName) as [p|] eqn:Er.
  2:{ rewrite app_nil_r. unfold trace_inv, sched_warn in *; simpl.
      repeat split; auto. exists k. exact Hk. }
  destruct ((0 <? queueSize (ls_sched l)) && (queueSize (ls_sched l) <? ls_n l)).
  { unfold trace_inv; repeat split; auto. exists k; exact Hk. }
  destruct ((queueSize (sched_drain (drainAt (ls_attempt l)) (ls_sched l)) =? 0)
            || (qsize (sched_drain (drainAt (ls_attempt l)) (ls_sched l))
                <? queueSize (sched_drain (drainAt (ls_attempt l)) (ls_sched l)))).
  2:{ destruct timeout; [|exact I].
      unfold trace_inv, sched_drain in *; simpl. repeat split; auto.
      exists (k + drainAt (ls_attempt l)). rewrite Hk, drop_drop. reflexivity. }
  unfold trace_inv.
  cbn -[Nat.modulo Nat.leb Nat.sub Nat.add task_ops drop].
  destruct (hasProcessFn s) eqn:Ehp; rewrite H3;
    cbn -[Nat.modulo Nat.leb Nat.sub Nat.add task_ops drop];
    rewrite ?H3, ?H2, ?Ehp; cbn [andb].
  all: repeat split; auto.
  all: try first
    [ rewrite length_app; simpl; lia
    | lia
    | exists (k + drainAt (ls_attempt l)); rewrite Hk, drop_drop; reflexivity
    | rewrite H10, map_app, app_assoc; reflexivity
    | rewrite ?H11, ?map_app, ?app_assoc, ?app_nil_r; reflexivity
    ].
  all: rewrite H12; destruct (ls_n l =? 0) eqn:En.
  all: try (apply Nat.eqb_eq in En; rewrite En in H1 |- *; destruct acc; [|discriminate];
        rewrite Nat.add_0_r; cbn -[Nat.modulo Nat.leb Nat.sub Nat.add];
        destruct (2 <=? totalTasks s); cbn [andb]; rewrite <- ?app_assoc; reflexivity).
  all: rewrite map_app; cbn [map]; rewrite task_ops_app, length_map, H1; cbn [andb fst snd].
  all: destruct (2 <=? totalTasks s + ls_n l); rewrite <- ?app_assoc; reflexivity.
Qed.





Lemma trace_loop s drainAt timeout tasks : forall l acc,
  trace_inv s l acc ->
  match scheduleLoop drainAt timeout l tasks with
  | Continue l' => trace_inv s l' (acc ++ omap (accept (pipeline s)) tasks)
  | Break l' | Raise _ l' =>
      exists pre rest, trace_inv s l' (acc ++ pre) /\
                       omap (accept (pipeline s)) tasks = pre ++ rest
  | Block => True
  end.
Proof.
  induction tasks as [|t ts IH]; intros l acc H; simpl.
  - rewrite app_nil_r. exact H.
  - pose proof (trace_inv_step s l acc t H drainAt timeout) as Hs.
    destruct (scheduleStep drainAt timeout l t) as [l1|l1|e l1|] eqn:E.
    + specialize (IH l1 _ Hs).
      destruct (scheduleLoop drainAt timeout l1 ts) as [l2|l2|e2 l2|];
        destruct (accept (pipeline s) t) as [x|]; rewrite <- ?app_assoc in IH; simpl in IH;
        try exact IH; try exact I;
        destruct IH as (pre & rest & Hi & Ho);
        [exists (x :: pre) | exists pre | exists (x :: pre) | exists pre];
        exists rest; (split; [rewrite <- ?app_assoc in Hi; exact Hi|]);
        first [exact (f_equal (cons x) Ho) | exact Ho].
    + exists [], (omap (accept (pipeline s)) (t :: ts)). rewrite app_nil_r. split; [exact Hs|reflexivity].
    + subst l1. exists [], (omap (accept (pipeline s)) (t :: ts)). rewrite app_nil_r. split; [exact H|reflexivity].
    + exact I.
Qed.

(** What a call that returns [(n, submission)] has done. *)
Lemma schedule_returned_aux s tasks drainAt timeout n sub s' :
  schedule s tasks drainAt timeout = Returned n sub s' ->
  exists acc rest k,
    omap (accept (pipeline s)) tasks = acc ++ rest /\
    length acc = n /\
    totalTasks s' = totalTasks s + n /\
    hasProcessFn s' = hasProcessFn s /\ queueSize s' = queueSize s /\
    pipeline s' = pipeline s /\ destroyed s' = false /\
    userArgs s' = userArgs s ++ (if hasProcessFn s then map snd acc else []) /\
    (n = 0 -> sub = None /\ submissions s' = submissions s /\
              updTarget s' = updTarget s /\ procTarget s' = procTarget s /\
              updReleased s' = drop k (updReleased s) /\ updHeld s' = updHeld s) /\
    (n <> 0 ->
       sub = Some (totalTasks s, task_ops (hasProcessFn s) (totalTasks s) (map (fun x => x.1.1) acc)) /\
       submissions s' = submissions s ++
         [(totalTasks s, task_ops (hasProcessFn s) (totalTasks s) (map (fun x => x.1.1) acc))] /\
       updTarget s' = updTarget s + n /\
       procTarget s' = procTarget s + (if hasProcessFn s then n else 0) /\
       updReleased s' = drop k (updReleased s) ++ updHeld s ++ map (fun x => (x.1.1, x.1.2)) acc /\
       updHeld s' = []).
Proof.
  unfold schedule. destruct (destroyed s) eqn:Ed; [discriminate|].
  pose proof (trace_loop s drainAt timeout tasks (mkLoop 0 None s 0) [] (trace_inv_start s)) as HL.
  assert (Hfin : forall l pre rest,
            trace_inv s l pre -> omap (accept (pipeline s)) tasks = pre ++ rest ->
            scheduleFinish l = Returned n sub s' ->
            exists acc rest k,
              omap (accept (pipeline s)) tasks = acc ++ rest /\
              length acc = n /\
              totalTasks s' = totalTasks s + n /\
              hasProcessFn s' = hasProcessFn s /\ queueSize s' = queueSize s /\
              pipeline s' = pipeline s /\ destroyed s' = false /\
              userArgs s' = userArgs s ++ (if hasProcessFn s then map snd acc else []) /\
              (n = 0 -> sub = None /\ submissions s' = submissions s /\
                        updTarget s' = updTarget s /\ procTarget s' = procTarget s /\
                        updReleased s' = drop k (updReleased s) /\ updHeld s' = updHeld s) /\
              (n <> 0 ->
                 sub = Some (totalTasks s, task_ops (hasProcessFn s) (totalTasks s)
                                                    (map (fun x => x.1.1) acc)) /\
                 submissions s' = submissions s ++
                   [(totalTasks s, task_ops (hasProcessFn s) (totalTasks s)
                                            (map (fun x => x.1.1) acc))] /\
                 updTarget s' = updTarget s + n /\
                 procTarget s' = procTarget s + (if hasProcessFn s then n else 0) /\
                 updReleased s' = drop k (updReleased s) ++ updHeld s
                                  ++ map (fun x => (x.1.1, x.1.2)) acc /\
                 updHeld s' = [])).
  { intros l pre rest (H1 & H2 & H3 & H4 & H5 & H6 & H7 & H8 & H9 & [k Hk] & H10 & H11 & H12) Ho Hf.
    exists pre, rest, k. split; [exact Ho|].
    unfold scheduleFinish in Hf. rewrite H12 in Hf.
    destruct (ls_n l =? 0) eqn:En.
    - injection Hf as <- <- <-. apply Nat.eqb_eq in En.
      destruct pre; [|simpl in H1; lia]. simpl.
      repeat split; try lia; auto; try congruence.
      rewrite H10; simpl; rewrite app_nil_r; reflexivity.
    - injection Hf as <- <- <-. apply Nat.eqb_neq in En.
      unfold sched_submit; simpl.
      repeat split; try lia; auto; try congruence.
      all: first [ rewrite H7; reflexivity
                 | rewrite H3, H9; destruct (hasProcessFn s); lia
                 | rewrite Hk, H10, app_assoc; reflexivity ]. }
  destruct (scheduleLoop drainAt timeout (mkLoop 0 None s 0) tasks) as [l|l|e l|];
    try discriminate; intros Hr.
  - apply (Hfin l (omap (accept (pipeline s)) tasks) []); [exact HL|rewrite app_nil_r; reflexivity|exact Hr].
  - destruct HL as (pre & rest & Hi & Ho). exact (Hfin l pre rest Hi Ho Hr).
Qed.

(** One iteration keeps [n] below the capacity of a bounded queue: a task
    is only put when the queue, which holds the [n] items of this call,
    has room. *)
Lemma bound_step drainAt timeout l task q :
  0 < q -> queueSize (ls_sched l) = q ->
  ls_n l <= length (updHeld (ls_sched l)) -> ls_n l <= q ->
  match scheduleStep drainAt timeout l task with
  | Continue l' | Break l' | Raise _ l' =>
      queueSize (ls_sched l') = q /\ ls_n l' <= length (updHeld (ls_sched l')) /\ ls_n l' <= q
  | Block => True
  end.
Proof.
  intros Hq Hs Hh Hn. unfold scheduleStep.
  destruct (_unpackTask task) as [[[pipeName params] args]|]; [|auto].
  destruct (resolve (pipeline (ls_sched l)) pipeName) as [p|]; [|simpl; auto].
  destruct ((0 <? queueSize (ls_sched l)) && (queueSize (ls_sched l) <? ls_n l)); [auto|].
  destruct ((queueSize (sched_drain (drainAt (ls_attempt l)) (ls_sched l)) =? 0)
            || (qsize (sched_drain (drainAt (ls_attempt l)) (ls_sched l))
                <? queueSize (sched_drain (drainAt (ls_attempt l)) (ls_sched l)))) eqn:Ec.
  - unfold qsize, sched_drain in Ec; simpl in Ec. rewrite Hs in Ec.
    apply orb_true_iff in Ec as [Ec|Ec]; [apply Nat.eqb_eq in Ec; lia|].
    apply Nat.ltb_lt in Ec.
    simpl; destruct (hasProcessFn (ls_sched l)); simpl; rewrite ?length_app; simpl; lia.
  - destruct timeout; simpl; auto.
Qed.

Lemma bound_loop drainAt timeout q tasks : forall l,
  0 < q -> queueSize (ls_sched l) = q ->
  ls_n l <= length (updHeld (ls_sched l)) -> ls_n l <= q ->
  match scheduleLoop drainAt timeout l tasks with
  | Continue l' | Break l' | Raise _ l' => ls_n l' <= q
  | Block => True
  end.
Proof.
  induction tasks as [|t ts IH]; intros l Hq Hs Hh Hn; simpl; [exact Hn|].
  pose proof (bound_step drainAt timeout l t q Hq Hs Hh Hn) as Hb.
  destruct (scheduleStep drainAt timeout l t) as [l1|l1|e l1|]; try tauto.
  destruct Hb as (H1 & H2 & H3). exact (IH l1 Hq H1 H2 H3).
Qed.

(** With a bounded queue a call that runs into a full queue stops at the
    put: with no timeout the put blocks for ever, since the update worker
    is only told about this call's items once the call is over. *)
Lemma block_loop drainAt q P tasks : forall l,
  0 < q -> queueSize (ls_sched l) = q -> pipeline (ls_sched l) = P ->
  updReleased (ls_sched l) = [] -> length (updHeld (ls_sched l)) = ls_n l -> ls_n l <= q ->
  (forall t, In t tasks -> accept P t <> None) ->
  q - ls_n l < length tasks ->
  scheduleLoop drainAt None l tasks = Block.
Proof.
  induction tasks as [|t ts IH]; intros l Hq Hs Hp Hr Hh Hn Ha Hlen; simpl in Hlen; [lia|].
  simpl. unfold scheduleStep.
  specialize (Ha t (or_introl eq_refl)) as Hat. unfold accept in Hat.
  destruct (_unpackTask t) as [[[pipeName params] args]|]; [|congruence].
  rewrite Hp. destruct (resolve P pipeName) as [p|]; [|congruence].
  rewrite Hs. replace ((0 <? q) && (q <? ls_n l)) with false
    by (symmetry; apply andb_false_iff; right; apply Nat.ltb_ge; lia).
  unfold qsize, sched_drain; simpl. rewrite Hs, Hr, drop_nil. simpl.
  destruct (Nat.eq_dec (ls_n l) q) as [Heq|Hne].
  - replace ((q =? 0) || (length (updHeld (ls_sched l)) <? q)) with false
      by (symmetry; apply orb_false_iff; split; [apply Nat.eqb_neq; lia|apply Nat.ltb_ge; lia]).
    reflexivity.
  - replace ((q =? 0) || (length (updHeld (ls_sched l)) <? q)) with true
      by (symmetry; apply orb_true_iff; right; apply Nat.ltb_lt; lia).
    apply IH; [exact Hq| | | | | |intros t' Ht'; apply Ha; right; exact Ht'|];
      simpl; destruct (hasProcessFn (ls_sched l)); simpl; rewrite ?length_app; simpl;
      auto; try lia.

Qed.

(** The warning a task is skipped with. *)
Definition skip_warning (p : pipelines) (task : pyval) : option warning :=
  match _unpackTask task with
  | Some (pipeName, _, _) =>
      match resolve p pipeName with
      | Some _ => None
      | None => Some (WSkipTask pipeName)
      end
  | None => None
  end.

Lemma omap_cons_eq {A B} (f : A -> option B) x l :
  omap f (x :: l) = match f x with Some y => y :: omap f l | None => omap f l end.
Proof. reflexivity. Qed.

(** With an unbounded queue no iteration breaks or blocks: every task
    that unpacks is accepted or skipped. *)
Lemma unbounded_loop drainAt timeout tasks : forall l,
  queueSize (ls_sched l) = 0 ->
  (forall t, In t tasks -> _unpackTask t <> None) ->
  exists l', scheduleLoop drainAt timeout l tasks = Continue l' /\
    ls_n l' = ls_n l + length (omap (accept (pipeline (ls_sched l))) tasks) /\
    warns (ls_sched l') = warns (ls_sched l) ++ omap (skip_warning (pipeline (ls_sched l))) tasks /\
    queueSize (ls_sched l') = 0 /\ pipeline (ls_sched l') = pipeline (ls_sched l).
Proof.
  induction tasks as [|t ts IH]; intros l Hq Hu.
  - exists l. simpl. rewrite app_nil_r. repeat split; lia.
  - cbn [scheduleLoop]. rewrite !omap_cons_eq.
    specialize (Hu t (or_introl eq_refl)) as Hut.
    destruct (_unpackTask t) as [[[pipeName params] args]|] eqn:Eu; [|congruence].
    unfold scheduleStep. rewrite Eu.
    destruct (resolve (pipeline (ls_sched l)) pipeName) as [p|] eqn:Er.
    + assert (Ha : accept (pipeline (ls_sched l)) t = Some (p, params, args))
        by (unfold accept; rewrite Eu, Er; reflexivity).
      assert (Hw0 : skip_warning (pipeline (ls_sched l)) t = None)
        by (unfold skip_warning; rewrite Eu, Er; reflexivity).
      rewrite Ha, Hw0, Hq. cbn [andb Nat.ltb Nat.leb orb Nat.eqb].
      unfold sched_drain at 1. cbn [queueSize]. rewrite Hq. cbn [Nat.eqb orb].
      match goal with |- context [scheduleLoop _ _ ?l1 ts] => remember l1 as l2 eqn:El2 end.
      destruct (IH l2) as (l' & E & Hn & Hw & Hq' & Hp');
        [subst l2; simpl; destruct (hasProcessFn (ls_sched l)); exact Hq
        |intros t' Ht'; apply Hu; right; exact Ht'|].
      exists l'. rewrite E.
      assert (Hl2 : ls_n l2 = S (ls_n l) /\ warns (ls_sched l2) = warns (ls_sched l) /\
                    pipeline (ls_sched l2) = pipeline (ls_sched l))
        by (subst l2; simpl; destruct (hasProcessFn (ls_sched l)); simpl; auto).
      destruct Hl2 as (H1 & H2 & H3). rewrite H1, H2, H3 in *. cbn [length].
      repeat split; try lia; try congruence.
    + assert (Ha : accept (pipeline (ls_sched l)) t = None)
        by (unfold accept; rewrite Eu, Er; reflexivity).
      assert (Hw0 : skip_warning (pipeline (ls_sched l)) t = Some (WSkipTask pipeName))
        by (unfold skip_warning; rewrite Eu, Er; reflexivity).
      rewrite Ha, Hw0.
      match goal with |- context [scheduleLoop _ _ ?l1 ts] => remember l1 as l2 eqn:El2 end.
      destruct (IH l2) as (l' & E & Hn & Hw & Hq' & Hp');
        [subst l2; exact Hq|intros t' Ht'; apply Hu; right; exact Ht'|].
      exists l'. rewrite E. subst l2. simpl in *.
      repeat split; try lia; try congruence.
      rewrite Hw, <- app_assoc. reflexivity.
Qed.

Lemma omap_repeat {A B} (f : A -> option B) x k :
  omap f (repeat x k) = match f x with Some y => repeat y k | None => [] end.
Proof.
  induction k as [|k IH]; [destruct (f x); reflexivity|].
  cbn [repeat]. rewrite omap_cons_eq, IH. destruct (f x); reflexivity.
Qed.

Lemma submissions_of_calls calls : forall s s' ns,
  scheduleCalls s calls = Some (s', ns) ->
  exists pss,
    submissions s' = submissions s ++ submissions_of (hasProcessFn s) (totalTasks s) pss /\
    map length pss = List.filter (fun n => negb (n =? 0)) ns /\
    hasProcessFn s' = hasProcessFn s.
Proof.
  induction calls as [|[[tasks drainAt] timeout] rest IH]; intros s s' ns H; simpl in H.
  - injection H as <- <-. exists []. rewrite app_nil_r. auto.
  - destruct (schedule s tasks drainAt timeout) as [n sub s1| |] eqn:E; try discriminate.
    destruct (scheduleCalls s1 rest) as [[s2 ns2]|] eqn:E2; try discriminate.
    injection H as <- <-.
    destruct (IH _ _ _ E2) as (pss & Hs & Hl & Hp).
    destruct (schedule_returned_aux _ _ _ _ _ _ _ E)
      as (acc & rst & k & _ & Hlen & Ht & Hp1 & _ & _ & _ & _ & H0 & H1).
    destruct (Nat.eq_dec n 0) as [->|Hne].
    + destruct (H0 eq_refl) as (_ & Hsub & _).
      exists pss. rewrite Hs, Hsub, Hp1, Ht, Nat.add_0_r. simpl.
      rewrite Hp, Hp1. auto.
    + destruct (H1 Hne) as (_ & Hsub & _).
      exists (map (fun x => x.1.1) acc :: pss).
      rewrite Hs, Hsub, Hp1, Ht, <- app_assoc. simpl.
      rewrite length_map, Hlen. split; [reflexivity|].
      split; [|rewrite Hp, Hp1; reflexivity].
      replace (negb (n =? 0)) with true by (symmetry; apply negb_true_iff, Nat.eqb_neq; exact Hne).
      rewrite Hl. reflexivity.
Qed.

Lemma schedule_unbounded_aux s tasks drainAt timeout :
  destroyed s = false -> queueSize s = 0 ->
  (forall t, In t tasks -> _unpackTask t <> None) ->
  exists sub s', schedule s tasks drainAt timeout
                 = Returned (length (omap (accept (pipeline s)) tasks)) sub s' /\
    warns s' = warns s ++ omap (skip_warning (pipeline s)) tasks.
Proof.
  intros Hd Hq Hu. unfold schedule. rewrite Hd.
  destruct (unbounded_loop drainAt timeout tasks (mkLoop 0 None s 0) Hq Hu)
    as (l' & E & Hn & Hw & _ & _).
  pose proof (trace_loop s drainAt timeout tasks (mkLoop 0 None s 0) [] (trace_inv_start s)) as HL.
  rewrite E in HL. rewrite E. simpl in Hn, Hw.
  destruct HL as (_ & _ & _ & _ & _ & _ & _ & _ & _ & _ & _ & _ & Hb).
  unfold scheduleFinish. rewrite Hb, Hn.
  destruct (length (omap (accept (pipeline s)) tasks) =? 0) eqn:Ez.
  - apply Nat.eqb_eq in Ez. rewrite Ez. eexists _, _. split; [reflexivity|exact Hw].
  - eexists _, _. split; [reflexivity|]. simpl. exact Hw.
Qed.

Lemma schedule_loop_n_bound s tasks drainAt timeout :
  0 < queueSize s ->
  match scheduleLoop drainAt timeout (mkLoop 0 None s 0) tasks with
  | Continue l' | Break l' | Raise _ l' => ls_n l' <= queueSize s
  | Block => True
  end.
Proof.
  intros Hq. apply (bound_loop drainAt timeout (queueSize s) tasks (mkLoop 0 None s 0));
    simpl; auto; lia.
Qed.

Lemma repeat_prefix {A} (y : A) k acc rest :
  acc ++ rest = repeat y k -> length acc = k -> acc = repeat y k.
Proof.
  intros H Hl. rewrite <- (take_app_length acc rest), H, <- Hl.
  apply take_ge. rewrite repeat_length. lia.
Qed.

Lemma map_repeat' {A B} (f : A -> B) y k : map f (repeat y k) = repeat (f y) k.
Proof. induction k; simpl; congruence. Qed.

(* ------------------------------------------------------------------ *)
(** ** Extra properties of [schedule] *)

(** With a bounded queue ([queueSize > 0]) a call of [schedule] that
    returns has submitted at most [queueSize] tasks. *)
Theorem schedule_n_le_queueSize s tasks drainAt timeout n sub s' :
  0 < queueSize s ->
  schedule s tasks drainAt timeout = Returned n sub s' ->
  n <= queueSize s.
Proof.
  intros Hq. unfold schedule. destruct (destroyed s); [discriminate|].
  pose proof (schedule_loop_n_bound s tasks drainAt timeout Hq) as Hb.
  destruct (scheduleLoop drainAt timeout (mkLoop 0 None s 0) tasks) as [l|l|e l|];
    try discriminate; unfold scheduleFinish;
    destruct (ls_n l =? 0) eqn:Ez; try (intros H; injection H; intros; lia);
    destruct (ls_builder l); try discriminate;
    intros H; injection H; intros; lia.
Qed.

Definition sched_q2 : Sched := PipelineScheduler_init (PipelineDict ["a"]) 2 false.

Definition tasks_a3 : list pyval :=
  [PyTuple [PyStr "a"; PyDict 0]; PyTuple [PyStr "a"; PyDict 1]; PyTuple [PyStr "a"; PyDict 2]].

Lemma schedule_n_le_queueSize_witness :
  exists sub s', schedule sched_q2 tasks_a3 (fun _ => 0) (Some 1) = Returned 2 sub s' /\
                 2 <= queueSize sched_q2.
Proof.
  eexists _, _. split; [vm_compute; reflexivity|].
  eapply (schedule_n_le_queueSize sched_q2 tasks_a3 (fun _ => 0) (Some 1) 2);
    [vm_compute; lia|vm_compute; reflexivity].
Defined.

(** With a bounded queue the check [if self.queueSize > 0 and n >
    self.queueSize: break] at the top of the loop never fires: after any
    run of iterations that did not stop, the condition is false. *)
Theorem schedule_queue_guard_never_fires s pre drainAt timeout l :
  0 < queueSize s ->
  scheduleLoop drainAt timeout (mkLoop 0 None s 0) pre = Continue l ->
  (0 <? queueSize (ls_sched l)) && (queueSize (ls_sched l) <? ls_n l) = false.
Proof.
  intros Hq E.
  pose proof (schedule_loop_n_bound s pre drainAt timeout Hq) as Hb.
  pose proof (trace_loop s drainAt timeout pre (mkLoop 0 None s 0) [] (trace_inv_start s)) as HL.
  rewrite E in Hb, HL. destruct HL as (_ & _ & _ & Hqs & _).
  rewrite Hqs. apply andb_false_iff. right. apply Nat.ltb_ge. exact Hb.
Qed.

Lemma schedule_queue_guard_never_fires_witness :
  exists l, scheduleLoop (fun _ => 0) None (mkLoop 0 None sched_q2 0)
              (firstn 2 tasks_a3) = Continue l /\ ls_n l = 2 /\
   (0 <? queueSize (ls_sched l)) && (queueSize (ls_sched l) <? ls_n l) = false.
Proof.
  eexists. split; [vm_compute; reflexivity|]. split; [vm_compute; reflexivity|].
  eapply (schedule_queue_guard_never_fires sched_q2 (firstn 2 tasks_a3) (fun _ => 0) None);
    [vm_compute; lia|vm_compute; reflexivity].
Defined.

(** With a bounded queue, no timeout, an empty queue and more acceptable
    tasks than the queue holds, [schedule] never returns: the put of task
    [queueSize + 1] waits for room, but the update worker is only given
    the items of this call once the call has submitted them. *)
Theorem schedule_blocks_when_queue_full s tasks drainAt :
  destroyed s = false -> updReleased s = [] -> updHeld s = [] ->
  0 < queueSize s -> queueSize s < length tasks ->
  (forall t, In t tasks -> accept (pipeline s) t <> None) ->
  schedule s tasks drainAt None = Diverges.
Proof.
  intros Hd Hr Hh Hq Hl Ha. unfold schedule. rewrite Hd.
  rewrite (block_loop drainAt (queueSize s) (pipeline s) tasks (mkLoop 0 None s 0));
    simpl; rewrite ?Hh; auto; lia.
Qed.

Lemma schedule_blocks_when_queue_full_witness :
  schedule sched_q2 tasks_a3 (fun k => k) None = Diverges.
Proof.
  apply schedule_blocks_when_queue_full; try (vm_compute; reflexivity); [vm_compute; lia|].
  intros t Ht. simpl in Ht. repeat destruct Ht as [<-|Ht]; try contradiction; vm_compute; discriminate.
Defined.

(** With an unbounded queue ([queueSize = 0], the default) and tasks that
    all have a valid shape, [schedule] returns the number of tasks whose
    pipeline is found, and emits one "skipping task" warning for every
    other task, in order. *)
Theorem schedule_unbounded s tasks drainAt timeout :
  destroyed s = false -> queueSize s = 0 ->
  (forall t, In t tasks -> _unpackTask t <> None) ->
  exists sub s', schedule s tasks drainAt timeout
                 = Returned (length (omap (accept (pipeline s)) tasks)) sub s' /\
    warns s' = warns s ++ omap (skip_warning (pipeline s)) tasks.
Proof. exact (schedule_unbounded_aux s tasks drainAt timeout). Qed.

Definition sched_u : Sched := PipelineScheduler_init (PipelineDict ["a"]) 0 true.

Definition tasks_ab : list pyval :=
  [PyTuple [PyStr "a"; PyDict 0]; PyTuple [PyStr "b"; PyDict 1; PyInt 3];
   PyTuple [PyStr "a"; PyDict 2; PyInt 4]].

Lemma schedule_unbounded_witness :
  exists sub s', schedule sched_u tasks_ab (fun _ => 0) None = Returned 2 sub s' /\
                 warns s' = [WSkipTask "b"].
Proof.
  destruct (schedule_unbounded sched_u tasks_ab (fun _ => 0) None)
    as (sub & s' & E & W); try (vm_compute; reflexivity).
  - intros t Ht. simpl in Ht. repeat destruct Ht as [<-|Ht]; try contradiction;
      vm_compute; discriminate.
  - exists sub, s'. split; [exact E|exact W].
Defined.

(** A call of [schedule] that returns [n]: the accepted tasks are the first
    [n] acceptable ones, [totalTasks] grows by [n], the processing
    arguments of the accepted tasks are queued in order when a [processFn]
    is set; if [n = 0] nothing is submitted and the worker targets stay,
    otherwise one submission is made with the task operations of the
    accepted tasks from index [totalTasks], both workers are told about
    [n] more tasks (the process worker only with a [processFn]), and the
    items held back in the queue are released to the update worker. *)
Theorem schedule_returned s tasks drainAt timeout n sub s' :
  schedule s tasks drainAt timeout = Returned n sub s' ->
  exists acc rest k,
    omap (accept (pipeline s)) tasks = acc ++ rest /\
    length acc = n /\
    totalTasks s' = totalTasks s + n /\
    hasProcessFn s' = hasProcessFn s /\ queueSize s' = queueSize s /\
    pipeline s' = pipeline s /\ destroyed s' = false /\
    userArgs s' = userArgs s ++ (if hasProcessFn s then map snd acc else []) /\
    (n = 0 -> sub = None /\ submissions s' = submissions s /\
              updTarget s' = updTarget s /\ procTarget s' = procTarget s /\
              updReleased s' = drop k (updReleased s) /\ updHeld s' = updHeld s) /\
    (n <> 0 ->
       sub = Some (totalTasks s, task_ops (hasProcessFn s) (totalTasks s) (map (fun x => x.1.1) acc)) /\
       submissions s' = submissions s ++
         [(totalTasks s, task_ops (hasProcessFn s) (totalTasks s) (map (fun x => x.1.1) acc))] /\
       updTarget s' = updTarget s + n /\
       procTarget s' = procTarget s + (if hasProcessFn s then n else 0) /\
       updReleased s' = drop k (updReleased s) ++ updHeld s ++ map (fun x => (x.1.1, x.1.2)) acc /\
       updHeld s' = []).
Proof. exact (schedule_returned_aux s tasks drainAt timeout n sub s'). Qed.

Lemma schedule_returned_witness :
  exists sub s', schedule sched_u tasks_ab (fun _ => 0) None = Returned 2 sub s' /\
    userArgs s' = [PyNone; PyInt 4] /\ updTarget s' = 2 /\ procTarget s' = 2.
Proof.
  eexists _, _. split; [vm_compute; reflexivity|].
  edestruct (schedule_returned sched_u tasks_ab (fun _ => 0) None 2)
    as (acc & rest & k & Ho & Hl & _ & _ & _ & _ & _ & Hu & _ & H1);
    [vm_compute; reflexivity|].
  vm_compute in Ho. destruct acc as [|x1 [|x2 [|x3 acc]]]; simpl in Hl; try discriminate.
  injection Ho as <- <- _.
  destruct (H1 ltac:(discriminate)) as (_ & _ & Hut & Hpt & _).
  rewrite Hu, Hut, Hpt. vm_compute. auto.
Defined.

(** After any sequence of [schedule] calls on a fresh scheduler that all
    returned, the submissions are, in order, one per call with a nonzero
    [n], and the submission of such a call covers the task indices right
    after those of the previous submissions: they start at 0 and follow
    each other without gap or overlap. *)
Theorem scheduleCalls_submissions p queueSize hasProc calls s' ns :
  scheduleCalls (PipelineScheduler_init p queueSize hasProc) calls = Some (s', ns) ->
  exists pss, submissions s' = submissions_of hasProc 0 pss /\
              map length pss = List.filter (fun n => negb (n =? 0)) ns.
Proof.
  intros H. destruct (submissions_of_calls _ _ _ _ H) as (pss & Hs & Hl & _).
  exists pss. split; [exact Hs|exact Hl].
Qed.

Definition demo_calls3 : list (list pyval * (nat -> nat) * option nat) :=
  [(tasks_ab, (fun _ => 0), None); ([PyTuple [PyStr "b"; PyDict 5]], (fun _ => 0), None);
   ([PyTuple [PyStr "a"; PyDict 6; PyInt 7]], (fun _ => 1), Some 10)].

Lemma scheduleCalls_submissions_witness :
  exists s', scheduleCalls (PipelineScheduler_init (PipelineDict ["a"]) 0 true) demo_calls3
             = Some (s', [2; 0; 1]) /\
  exists pss, submissions s' = submissions_of true 0 pss /\ map length pss = [2; 1].
Proof.
  eexists. split; [vm_compute; reflexivity|].
  apply (scheduleCalls_submissions (PipelineDict ["a"]) 0 true demo_calls3 _ [2; 0; 1]).
  vm_compute. reflexivity.
Defined.

(* ------------------------------------------------------------------ *)
(** ** Extra properties of [DynamicTaskScheduler] *)

(** The scheduler a [DynamicTaskScheduler] builds has the default
    unbounded queue and a [processFn].  When the task's pipeline name
    (none is [""]) is found and its parameters are a dict,
    [_schedule(task, nBatches)] with [nBatches >= 0] passes its assertion:
    it accepts all [nBatches] batches, and queues the task itself as the
    processing argument of every one of them. *)
Theorem DynamicTaskScheduler__schedule_ok s o params taskPipeline task nBatches drainAt :
  destroyed s = false -> queueSize s = 0 -> hasProcessFn s = true ->
  params = PyDict o -> (0 <= nBatches)%Z ->
  resolve (pipeline s) (match taskPipeline with Some nm => nm | None => "" end) <> None ->
  exists sub s',
    DynamicTaskScheduler__schedule s params taskPipeline task nBatches drainAt
      = Returned (Z.to_nat nBatches) sub s' /\
    totalTasks s' = totalTasks s + Z.to_nat nBatches /\
    userArgs s' = userArgs s ++ repeat task (Z.to_nat nBatches).
Proof.
  intros Hd Hq Hp -> Hn Hr.
  set (nm := match taskPipeline with Some nm => nm | None => "" end) in Hr.
  set (item := match taskPipeline with
               | None => PyTuple [PyDict o; task]
               | Some name => PyTuple [PyStr name; PyDict o; task]
               end).
  assert (Hu : _unpackTask item = Some (nm, PyDict o, task))
    by (subst item nm; destruct taskPipeline; reflexivity).
  destruct (resolve (pipeline s) nm) as [r|] eqn:Er; [|congruence].
  assert (Ha : accept (pipeline s) item = Some (r, PyDict o, task))
    by (unfold accept; rewrite Hu, Er; reflexivity).
  assert (Hun : forall t, In t (repeat item (Z.to_nat nBatches)) -> _unpackTask t <> None)
    by (intros t Ht; apply repeat_spec in Ht; subst t; rewrite Hu; discriminate).
  destruct (schedule_unbounded_aux s _ drainAt None Hd Hq Hun) as (sub & s' & E & _).
  rewrite omap_repeat, Ha, repeat_length in E.
  unfold DynamicTaskScheduler__schedule. fold item. rewrite E.
  rewrite Z2Nat.id, Z.eqb_refl by exact Hn.
  exists sub, s'. split; [reflexivity|].
  destruct (schedule_returned_aux _ _ _ _ _ _ _ E)
    as (acc & rest & k & Ho & Hl & Ht & _ & _ & _ & _ & Hua & _).
  rewrite omap_repeat, Ha in Ho.
  rewrite (repeat_prefix _ _ _ _ (eq_sym Ho) Hl) in Hua.
  split; [exact Ht|]. rewrite Hua, Hp, map_repeat'. reflexivity.
Qed.

Lemma DynamicTaskScheduler__schedule_ok_witness :
  exists sub s',
    DynamicTaskScheduler__schedule sched_u (PyDict 0) (Some "a") (PyInt 9) 3 (fun _ => 0)
      = Returned 3 sub s' /\ totalTasks s' = 3 /\ userArgs s' = [PyInt 9; PyInt 9; PyInt 9].
Proof.
  apply (DynamicTaskScheduler__schedule_ok sched_u 0); try (vm_compute; reflexivity);
    [lia|vm_compute; discriminate].
Defined.

(** [_schedule(task, nBatches)] fails its assertion when [nBatches < 0]
    ([[item] * nBatches] is empty), or when [nBatches > 0] and the task's
    pipeline is not found: every batch is then skipped with a warning,
    nothing is submitted and [totalTasks] stays. *)
Theorem DynamicTaskScheduler__schedule_assert s o params taskPipeline task nBatches drainAt :
  destroyed s = false -> queueSize s = 0 -> params = PyDict o ->
  let nm := match taskPipeline with Some nm => nm | None => "" end in
  (nBatches < 0 \/ 0 < nBatches /\ resolve (pipeline s) nm = None)%Z ->
  exists s',
    DynamicTaskScheduler__schedule s params taskPipeline task nBatches drainAt
      = Raised (Exc "AssertionError") s' /\
    totalTasks s' = totalTasks s /\ submissions s' = submissions s /\
    warns s' = warns s ++ repeat (WSkipTask nm) (Z.to_nat nBatches).
Proof.
  intros Hd Hq -> nm Hc.
  set (item := match taskPipeline with
               | None => PyTuple [PyDict o; task]
               | Some name => PyTuple [PyStr name; PyDict o; task]
               end).
  assert (Hu : _unpackTask item = Some (nm, PyDict o, task))
    by (subst item nm; destruct taskPipeline; reflexivity).
  assert (Hun : forall t, In t (repeat item (Z.to_nat nBatches)) -> _unpackTask t <> None)
    by (intros t Ht; apply repeat_spec in Ht; subst t; rewrite Hu; discriminate).
  destruct (schedule_unbounded_aux s _ drainAt None Hd Hq Hun) as (sub & s' & E & Hw).
  assert (Hz : omap (accept (pipeline s)) (repeat item (Z.to_nat nBatches)) = [] /\
               omap (skip_warning (pipeline s)) (repeat item (Z.to_nat nBatches))
               = repeat (WSkipTask nm) (Z.to_nat nBatches)).
  { destruct Hc as [Hc|[Hc Hr]].
    - destruct nBatches; try lia. split; reflexivity.
    - rewrite !omap_repeat. unfold accept, skip_warning. rewrite Hu, Hr. split; reflexivity. }
  destruct Hz as [Hz1 Hz2]. rewrite Hz1 in E. rewrite Hz2 in Hw.
  unfold DynamicTaskScheduler__schedule. fold item. rewrite E.
  cbn [length].
  rewrite (proj2 (Z.eqb_neq (Z.of_nat 0) nBatches)) by (simpl; lia).
  exists s'. split; [reflexivity|].
  destruct (schedule_returned_aux _ _ _ _ _ _ _ E)
    as (acc & rest & k & _ & _ & Ht & _ & _ & _ & _ & _ & H0 & _).
  destruct (H0 eq_refl) as (_ & Hs & _).
  split; [simpl in Ht; lia|]. split; [exact Hs|exact Hw].
Qed.

Lemma DynamicTaskScheduler__schedule_assert_witness :
  exists s',
    DynamicTaskScheduler__schedule sched_u (PyDict 0) (Some "zz") (PyInt 9) 2 (fun _ => 0)
      = Raised (Exc "AssertionError") s' /\
    totalTasks s' = 0 /\ submissions s' = [] /\ warns s' = [WSkipTask "zz"; WSkipTask "zz"].
Proof.
  apply (DynamicTaskScheduler__schedule_assert sched_u 0); try reflexivity.
  right. split; [lia|vm_compute; reflexivity].
Defined.

Lemma dts_event_inv ops : forall d,
  (_allFinishedEvent d = true -> (_inFlightCounter d <= 0)%Z) ->
  let d' := foldl dts_step d ops in
  _allFinishedEvent d' = true -> (_inFlightCounter d' <= 0)%Z.
Proof.
  induction ops as [|o ops IH]; intros d H; simpl; [exact H|].
  apply IH. destruct o as [k|t k r]; simpl; [discriminate|].
  unfold DynamicTaskScheduler__process.
  destruct (onBatchFinished t k r) as [t' [nNew|e]]; simpl; [|exact H].
  destruct (remaining t' =? 0)%Z; simpl; [|exact H].
  destruct (_inFlightCounter d - 1 <=? 0)%Z eqn:Ec; simpl.
  - intros _. apply Z.leb_le. exact Ec.
  - intros He. specialize (H He). apply Z.leb_gt in Ec. lia.
Qed.

(** Whatever sequence of [scheduleTasks] calls and [_process] runs has
    happened since construction, [_allFinishedEvent] is only set while
    [_inFlightCounter <= 0]: [waitAll] never returns while a task it
    counted is still in flight. *)
Theorem DynamicTaskScheduler_event_sound ops :
  let d := foldl dts_step DynamicTaskScheduler_init ops in
  _allFinishedEvent d = true -> (_inFlightCounter d <= 0)%Z.
Proof. apply dts_event_inv. discriminate. Qed.

Lemma DynamicTaskScheduler_event_sound_witness :
  let d := foldl dts_step DynamicTaskScheduler_init
             [OScheduleTasks 1; OProcess (mkDT 1 false 0) 0 None] in
  _allFinishedEvent d = true /\ (_inFlightCounter d <= 0)%Z.
Proof.
  split; [vm_compute; reflexivity|].
  apply (DynamicTaskScheduler_event_sound [OScheduleTasks 1; OProcess (mkDT 1 false 0) 0 None]).
  vm_compute. reflexivity.
Defined.

(** [_process] for a task whose last batch just finished ([remaining - 1
    + processBatch = 0]): if [onTaskFinished] returns, the in-flight
    counter drops by one and no batch is scheduled; if it raises, the
    exception leaves [_process] before the counter is touched, so the task
    is never counted as finished. *)
Theorem DynamicTaskScheduler__process_last_batch d t k r :
  (remaining t - 1 + k = 0)%Z ->
  let '(d', t', res) := DynamicTaskScheduler__process d t k r in
  remaining t' = 0%Z /\ taskFinishedCalls t' = S (taskFinishedCalls t) /\
  match r with
  | None => _inFlightCounter d' = (_inFlightCounter d - 1)%Z /\ res = inl None
  | Some e => d' = d /\ res = inr e
  end.
Proof.
  intros Hz. unfold DynamicTaskScheduler__process, onBatchFinished.
  rewrite Hz. simpl. destruct r as [e|]; simpl; auto.
Qed.

Lemma DynamicTaskScheduler__process_last_batch_witness :
  (remaining (mkDT 1 false 0) - 1 + 0 = 0)%Z /\
  let '(d', t', res) := DynamicTaskScheduler__process (mkDTSched 2 false) (mkDT 1 false 0) 0
                          (Some (Exc "E")) in
  remaining t' = 0%Z /\ taskFinishedCalls t' = 1 /\
  d' = mkDTSched 2 false /\ res = inr (Exc "E").
Proof.
  split; [reflexivity|].
  exact (DynamicTaskScheduler__process_last_batch (mkDTSched 2 false) (mkDT 1 false 0) 0
           (Some (Exc "E")) eq_refl).
Defined.

(* ------------------------------------------------------------------ *)
(** ** [_CounterWorkerThread]: invariant of the two threads *)

Definition cpc_holds_lock (c : cpc) : bool :=
  match c with CRunSet _ => true | _ => false end.

Definition cpc_running (c : cpc) : bool :=
  match c with CIdle | CRunLock | CRunSet _ => true | _ => false end.

Definition wpc_resumed (p : wpc) : bool :=
  match p with WCheckStop | WQuick | WLock | WCall => true | _ => false end.

Definition cw_inv (s : CW) : Prop :=
  fnCalls s = seq 0 (_counter s) /\ _counter s <= _target s /\
  (cw_wpc s = WCall -> _counter s < _target s) /\
  (cw_wpc s = WWait -> _isSuspending s = true) /\
  lockByCaller s = cpc_holds_lock (cw_cpc s) /\
  (cw_cpc s = CRunSet false -> _isSuspending s = false) /\
  ((cw_wpc s = WTop \/ cw_wpc s = WWait) -> _isSuspending s = true -> _wakeEvent s = false ->
     _counter s < _target s -> cw_cpc s = CRunLock \/ cw_cpc s = CRunSet true) /\
  _isStopping s = negb (cpc_running (cw_cpc s)) /\
  (cw_cpc s = CJoin -> _wakeEvent s = true \/ cw_wpc s = WResume \/
                       cw_wpc s = WCheckStop \/ cw_wpc s = WDone) /\
  (cw_cpc s = CStopped -> cw_wpc s = WDone) /\
  (cw_wpc s = WDone -> _isStopping s = true) /\
  (wpc_resumed (cw_wpc s) = true -> _isSuspending s = false).

Lemma cw_inv_init : cw_inv _CounterWorkerThread_init.
Proof.
  unfold cw_inv; simpl. repeat split; intros; try discriminate; try lia.
Qed.

Ltac cw_solve :=
  repeat match goal with
         | H : ?x = ?x -> _ |- _ => specialize (H eq_refl)
         | H : ?x = ?x \/ _ -> _ |- _ => specialize (H (or_introl eq_refl))
         | H : _ \/ ?x = ?x -> _ |- _ => specialize (H (or_intror eq_refl))
         | H : ?a < ?b -> _ |- _ => specialize (H ltac:(lia))
         | H : ?a = ?b -> _ |- _ => specialize (H ltac:(assumption))
         | H : ?a = ?b -> _ |- _ => specialize (H ltac:(symmetry; assumption))
         end.

Lemma cw_inv_step a s s' : cw_inv s -> cw_step a s = Some s' -> cw_inv s'.
Proof.
  destruct s as [p c susp stop ev lk cnt tgt calls].
  unfold cw_inv; cbn [cw_wpc cw_cpc _isSuspending _isStopping _wakeEvent lockByCaller
                      _counter _target fnCalls].
  intros (Hc & Hle & HW & HWt & Hlk & HRs & Hwake & Hst & HJ & HS & HD & HR) Hstep.
  destruct a as [|[n|]]; destruct p; destruct c as [| |b| | |];
    cbn [cw_step worker_step caller_step] in Hstep;
    repeat match type of Hstep with
           | context [if ?b then _ else _] => destruct b eqn:?
           end;
    try discriminate; injection Hstep as <-;
    cbn [cw_wpc cw_cpc _isSuspending _isStopping _wakeEvent lockByCaller
         _counter _target fnCalls cpc_holds_lock cpc_running wpc_resumed negb orb] in *;
    repeat match goal with
           | |- context [if ?b then _ else _] => destruct b eqn:?
           end;
    repeat match goal with
           | H : (_ <=? _) = true |- _ => apply Nat.leb_le in H
           | H : (_ <=? _) = false |- _ => apply Nat.leb_gt in H
           end;
    subst; cbn [cw_wpc negb orb] in *;
    (split; [try (rewrite seq_S; simpl; congruence); try exact Hc|]);
    repeat split; intros; cw_solve;
    intuition (try discriminate; try congruence; try lia).
  all: destruct b, ev; cbn in *; try discriminate; cw_solve; intuition discriminate.
Qed.

Lemma cw_run_inv acts : forall s s', cw_inv s -> cw_run acts s = Some s' -> cw_inv s'.
Proof.
  induction acts as [|a acts IH]; intros s s' Hi H; simpl in H.
  - injection H as <-. exact Hi.
  - destruct (cw_step a s) as [s1|] eqn:E; [|discriminate].
    exact (IH s1 s' (cw_inv_step a s s1 Hi E) H).
Qed.

Lemma cw_reachable_inv acts s :
  cw_run acts _CounterWorkerThread_init = Some s -> cw_inv s.
Proof. apply cw_run_inv, cw_inv_init. Qed.

Lemma worker_run_add a b s : worker_run (a + b) s = worker_run b (worker_run a s).
Proof.
  revert s. induction a as [|a IH]; intros s; simpl; [reflexivity|].
  destruct (worker_step s) as [s1|] eqn:E; [apply IH|].
  destruct b; simpl; [reflexivity|]. rewrite E. reflexivity.
Qed.

(** The state in which the worker waits with nothing left to do. *)
Definition cw_parked (c : cpc) (tgt : nat) : CW :=
  mkCW WWait c true false false false tgt tgt (seq 0 tgt).

Lemma worker_from_quick c tgt : forall d cnt ev,
  d = tgt - cnt -> cnt <= tgt -> cpc_running c = true -> cpc_holds_lock c = false ->
  exists k, worker_run k (mkCW WQuick c false false ev false cnt tgt (seq 0 cnt))
            = cw_parked c tgt.
Proof.
  induction d as [|d IH]; intros cnt ev Hd Hle Hc Hl.
  - assert (cnt = tgt) as -> by lia.
    destruct ev.
    + exists 10. repeat (cbn [worker_run worker_step]; rewrite ?Nat.leb_refl). reflexivity.
    + exists 3. repeat (cbn [worker_run worker_step]; rewrite ?Nat.leb_refl). reflexivity.
  - destruct (IH (S cnt) ev ltac:(lia) ltac:(lia) Hc Hl) as [k Hk].
    exists (4 + k). rewrite worker_run_add.
    replace (worker_run 4 _) with (mkCW WQuick c false false ev false (S cnt) tgt (seq 0 (S cnt)))
      by (cbn [worker_run worker_step];
          replace (tgt <=? cnt) with false by (symmetry; apply Nat.leb_gt; lia);
          cbn [worker_run worker_step]; rewrite seq_S; reflexivity).
    exact Hk.
Qed.

Lemma worker_via_quick c tgt j s cnt ev :
  worker_run j s = mkCW WQuick c false false ev false cnt tgt (seq 0 cnt) ->
  cnt <= tgt -> cpc_running c = true -> cpc_holds_lock c = false ->
  exists k, worker_run k s = cw_parked c tgt.
Proof.
  intros H Hle Hc Hl.
  destruct (worker_from_quick c tgt (tgt - cnt) cnt ev eq_refl Hle Hc Hl) as [k Hk].
  exists (j + k). rewrite worker_run_add, H. exact Hk.
Qed.

Ltac wrun := repeat (cbn [worker_run worker_step]; rewrite ?Nat.leb_refl).

(** From a reachable state in which no [run] or [stop] call is under way,
    the worker thread on its own, with every call of [fn] returning, does
    all iterations up to [total] and then waits on the clear event. *)
Lemma worker_parks acts s :
  cw_run acts _CounterWorkerThread_init = Some s -> cw_cpc s = CIdle ->
  exists k, worker_run k s = cw_parked CIdle (_target s).
Proof.
  intros H Hc. pose proof (cw_reachable_inv acts s H) as Hi.
  destruct s as [p c susp stop ev lk cnt tgt calls]. unfold cw_inv in Hi.
  cbn [cw_wpc cw_cpc _isSuspending _isStopping _wakeEvent lockByCaller
       _counter _target fnCalls] in *. subst c.
  destruct Hi as (-> & Hle & HW & HWt & Hlk & _ & Hwake & Hst & _ & _ & HD & HR).
  cbn in Hlk, Hst. subst lk stop.
  destruct p; cbn in HR.
  - destruct susp; [destruct ev|].
    + apply (worker_via_quick CIdle tgt 5 _ cnt false); [wrun; reflexivity|lia|reflexivity..].
    + destruct (Nat.eq_dec cnt tgt) as [->|Hne].
      * exists 1. wrun. reflexivity.
      * destruct (Hwake (or_introl eq_refl) eq_refl eq_refl ltac:(lia)); discriminate.
    + apply (worker_via_quick CIdle tgt 2 _ cnt ev); [wrun; reflexivity|lia|reflexivity..].
  - rewrite (HWt eq_refl) in *. destruct ev.
    + apply (worker_via_quick CIdle tgt 4 _ cnt false); [wrun; reflexivity|lia|reflexivity..].
    + destruct (Nat.eq_dec cnt tgt) as [->|Hne].
      * exists 0. reflexivity.
      * destruct (Hwake (or_intror eq_refl) eq_refl eq_refl ltac:(lia)); discriminate.
  - apply (worker_via_quick CIdle tgt 3 _ cnt false); [wrun; reflexivity|lia|reflexivity..].
  - apply (worker_via_quick CIdle tgt 2 _ cnt ev); [wrun; reflexivity|lia|reflexivity..].
  - rewrite (HR eq_refl).
    apply (worker_via_quick CIdle tgt 1 _ cnt ev); [wrun; reflexivity|lia|reflexivity..].
  - rewrite (HR eq_refl).
    apply (worker_via_quick CIdle tgt 0 _ cnt ev); [reflexivity|lia|reflexivity..].
  - rewrite (HR eq_refl). destruct (Nat.eq_dec cnt tgt) as [->|Hne].
    + destruct ev.
      * apply (worker_via_quick CIdle tgt 6 _ tgt false); [wrun; reflexivity|lia|reflexivity..].
      * exists 2. wrun. reflexivity.
    + apply (worker_via_quick CIdle tgt 4 _ (S cnt) ev); [|lia|reflexivity..].
      cbn [worker_run worker_step].
      replace (tgt <=? cnt) with false by (symmetry; apply Nat.leb_gt; lia).
      wrun. rewrite seq_S. reflexivity.
  - rewrite (HR eq_refl). specialize (HW eq_refl).
    apply (worker_via_quick CIdle tgt 3 _ (S cnt) ev); [|lia|reflexivity..].
    wrun. rewrite seq_S. reflexivity.
  - specialize (HD eq_refl). discriminate.
Qed.

Lemma worker_step_frame s s1 :
  worker_step s = Some s1 ->
  _target s1 = _target s /\ cw_cpc s1 = cw_cpc s /\
  _counter s1 = match cw_wpc s with WCall => S (_counter s) | _ => _counter s end.
Proof.
  destruct s as [p c susp stop ev lk cnt tgt calls]; intros H.
  destruct p; cbn [worker_step] in H;
    repeat match type of H with context [if ?b then _ else _] => destruct b end;
    try discriminate; injection H as <-; cbn; auto.
Qed.

Lemma worker_run_fn_agree f : forall k s,
  cw_inv s -> (forall j, _counter s <= j < _target s -> f j = false) ->
  worker_run_fn f k s = worker_run k s.
Proof.
  induction k as [|k IH]; intros s Hi Hf; [reflexivity|]. cbn [worker_run_fn worker_run].
  assert (E : worker_step_fn f s = worker_step s).
  { unfold worker_step_fn. destruct (cw_wpc s) eqn:Ep; try reflexivity.
    destruct Hi as (_ & _ & HW & _). rewrite (Hf (_counter s)) by (specialize (HW Ep); lia).
    reflexivity. }
  rewrite E. destruct (worker_step s) as [s1|] eqn:E1; [|reflexivity].
  apply IH; [exact (cw_inv_step Worker s s1 Hi E1)|].
  destruct (worker_step_frame s s1 E1) as (Ht & _ & Hc).
  intros j Hj. apply Hf. rewrite Ht in Hj. destruct (cw_wpc s); lia.
Qed.

Lemma worker_run_fn_reaches_call f i : forall k s,
  cw_inv s -> _counter s <= i -> i < _counter (worker_run k s) ->
  (forall j, _counter s <= j < i -> f j = false) ->
  exists k', cw_wpc (worker_run_fn f k' s) = WCall /\ _counter (worker_run_fn f k' s) = i /\
             fnCalls (worker_run_fn f k' s) = seq 0 i /\
             _target (worker_run_fn f k' s) = _target s /\
             cw_cpc (worker_run_fn f k' s) = cw_cpc s.
Proof.
  induction k as [|k IH]; intros s Hi Hle Hlt Hf; cbn [worker_run] in Hlt; [lia|].
  destruct (cw_wpc s) eqn:Ep;
    try (destruct (Nat.eq_dec (_counter s) i) as [<-|Hne];
         [exists 0; destruct Hi as (Hc0 & _); cbn; repeat split; assumption|]);
    (assert (E : worker_step_fn f s = worker_step s)
       by (unfold worker_step_fn; rewrite Ep; try reflexivity;
           rewrite (Hf (_counter s)) by lia; reflexivity));
    (destruct (worker_step s) as [s1|] eqn:E1; [|lia]);
    destruct (worker_step_frame s s1 E1) as (Ht & Hcp & Hc); rewrite Ep in Hc;
    (destruct (IH s1 (cw_inv_step Worker s s1 Hi E1)) as (k' & H1 & H2 & H3 & H4 & H5);
     [lia|exact Hlt|intros j Hj; apply Hf; lia|]);
    exists (S k'); cbn [worker_run_fn]; rewrite E; repeat split; congruence.
Qed.

Lemma worker_run_fn_stuck f s : worker_step_fn f s = None -> forall k, worker_run_fn f k s = s.
Proof. intros H [|k]; cbn [worker_run_fn]; [|rewrite H]; reflexivity. Qed.

(** Liveness of [_CounterWorkerThread] without a lost wake-up: from every
    state the two threads can reach from construction in which no [run]
    or [stop] call is under way, if [fn] returns for each index from
    [count] to [total - 1], the worker thread on its own calls [fn] for
    every index up to [total], once each and in order, and then waits on
    the event with the event clear.  Every iteration a [run] call has
    asked for is then eventually done. *)
Theorem CounterWorker_no_lost_wakeup acts s fnRaises :
  cw_run acts _CounterWorkerThread_init = Some s -> cw_cpc s = CIdle ->
  (forall j, _counter s <= j < _target s -> fnRaises j = false) ->
  exists k, worker_run_fn fnRaises k s = cw_parked CIdle (_target s).
Proof.
  intros H Hc Hf. destruct (worker_parks acts s H Hc) as [k Hk]. exists k.
  rewrite worker_run_fn_agree; [exact Hk|exact (cw_reachable_inv acts s H)|exact Hf].
Qed.

Definition acts_run2 : list actor :=
  [Caller (ReqRun 2); Caller ReqStop; Caller ReqStop; Worker; Worker; Worker; Worker; Worker].

Lemma CounterWorker_no_lost_wakeup_witness :
  exists s, cw_run acts_run2 _CounterWorkerThread_init = Some s /\ cw_cpc s = CIdle /\
            exists k, worker_run_fn (fun _ => false) k s = cw_parked CIdle 2.
Proof.
  eexists. split; [vm_compute; reflexivity|]. split; [reflexivity|].
  match goal with
  | |- exists k, worker_run_fn _ k ?st = _ =>
      apply (CounterWorker_no_lost_wakeup acts_run2 st (fun _ => false));
        [vm_compute; reflexivity|reflexivity|intros; reflexivity]
  end.
Defined.

(** An exception from [fn] ends the worker thread for good: from a state
    as above, if [fn] returns for the indices [count, ..., i - 1] and
    raises for an index [i] below [total], the thread stops in the call
    [fn(i)]; the calls of [fn] that returned are those with [0, ..., i -
    1], [count] stays [i < total], and the thread takes no further step,
    so [fn] is never called with [i + 1, ..., total - 1]. *)
Theorem CounterWorker_fn_raises_stops acts s fnRaises i :
  cw_run acts _CounterWorkerThread_init = Some s -> cw_cpc s = CIdle ->
  _counter s <= i < _target s -> fnRaises i = true ->
  (forall j, _counter s <= j < i -> fnRaises j = false) ->
  exists k, fnCalls (worker_run_fn fnRaises k s) = seq 0 i /\
            _counter (worker_run_fn fnRaises k s) = i /\
            _target (worker_run_fn fnRaises k s) = _target s /\
            forall k', worker_run_fn fnRaises k' (worker_run_fn fnRaises k s)
                       = worker_run_fn fnRaises k s.
Proof.
  intros H Hc Hi Hr Hf. destruct (worker_parks acts s H Hc) as [k Hk].
  destruct (worker_run_fn_reaches_call fnRaises i k s (cw_reachable_inv acts s H))
    as (k' & H1 & H2 & H3 & H4 & _); [lia|rewrite Hk; cbn; lia|exact Hf|].
  exists k'. split; [exact H3|]. split; [exact H2|]. split; [exact H4|].
  apply worker_run_fn_stuck. unfold worker_step_fn. rewrite H1, H2, Hr. reflexivity.
Qed.

Lemma CounterWorker_fn_raises_stops_witness :
  exists s, cw_run acts_run2 _CounterWorkerThread_init = Some s /\
            exists k, fnCalls (worker_run_fn (fun j => j =? 1) k s) = [0] /\
                      _counter (worker_run_fn (fun j => j =? 1) k s) = 1.
Proof.
  eexists. split; [vm_compute; reflexivity|].
  match goal with
  | |- exists k, fnCalls (worker_run_fn _ k ?st) = _ /\ _ =>
      destruct (CounterWorker_fn_raises_stops acts_run2 st (fun j => j =? 1) 1)
        as (k & H1 & H2 & _);
        [vm_compute; reflexivity|reflexivity|cbn; lia|reflexivity
        |intros j Hj; cbn in Hj; assert (j = 0) as -> by lia; reflexivity|];
      exists k; split; [exact H1|exact H2]
  end.
Defined.

(** In every state the two threads can reach, [fn] has been called with
    [0, 1, ..., count - 1], once each and in this order, and [count] never
    exceeds [total]. *)
Theorem CounterWorker_calls_in_order acts s :
  cw_run acts _CounterWorkerThread_init = Some s ->
  fnCalls s = seq 0 (_counter s) /\ _counter s <= _target s.
Proof.
  intros H. destruct (cw_reachable_inv acts s H) as (Hc & Hle & _). split; assumption.
Qed.

Lemma CounterWorker_calls_in_order_witness :
  exists s, cw_run (acts_run2 ++ [Worker; Worker; Worker; Worker; Worker; Worker]) _CounterWorkerThread_init
              = Some s /\ fnCalls s = [0; 1] /\ _counter s <= _target s.
Proof.
  eexists. split; [vm_compute; reflexivity|].
  apply (CounterWorker_calls_in_order (acts_run2 ++ [Worker; Worker; Worker; Worker; Worker; Worker])).
  vm_compute. reflexivity.
Defined.

(** [stop()] returns: in every reachable state in which the calling
    thread has set [_isStopping] and the event and is joining the worker,
    the worker leaves its loop within seven steps of its own, after which
    the join completes. *)
Theorem CounterWorker_stop_joins acts s :
  cw_run acts _CounterWorkerThread_init = Some s -> cw_cpc s = CJoin ->
  cw_wpc (worker_run 7 s) = WDone /\
  exists s', cw_step (Caller ReqStop) (worker_run 7 s) = Some s' /\ cw_cpc s' = CStopped.
Proof.
  intros H Hc. pose proof (cw_reachable_inv acts s H) as Hi.
  destruct s as [p c susp stop ev lk cnt tgt calls]. unfold cw_inv in Hi.
  cbn [cw_wpc cw_cpc _isSuspending _isStopping _wakeEvent lockByCaller
       _counter _target fnCalls] in *. subst c.
  destruct Hi as (_ & _ & _ & HWt & Hlk & _ & _ & Hst & HJ & _ & _ & HR).
  cbn in Hlk, Hst. subst lk stop. specialize (HJ eq_refl).
  destruct p; cbn in HR; try rewrite (HR eq_refl); try rewrite (HWt eq_refl);
    try destruct susp; destruct ev;
    try (destruct HJ as [?|[?|[?|?]]]; discriminate);
    cbn [worker_run worker_step];
    repeat (match goal with |- context [if ?b then _ else _] => destruct b end;
            cbn [worker_run worker_step]);
    (split; [reflexivity|eexists; split; reflexivity]).
Qed.

Lemma CounterWorker_stop_joins_witness :
  exists s, cw_run (acts_run2 ++ [Worker; Caller ReqStop; Caller ReqStop]) _CounterWorkerThread_init
              = Some s /\ cw_cpc s = CJoin /\
  cw_wpc (worker_run 7 s) = WDone.
Proof.
  eexists. split; [vm_compute; reflexivity|]. split; [reflexivity|].
  apply (CounterWorker_stop_joins (acts_run2 ++ [Worker; Caller ReqStop; Caller ReqStop]));
    [vm_compute; reflexivity|reflexivity].
Defined.

(* ------------------------------------------------------------------ *)
(** ** Extra properties of stages and [Pipeline] *)





Lemma NoDup_public d : NoDup (st_public d).
Proof.
  unfold st_public, st_fields. apply NoDup_ListNoDup, List.NoDup_filter, NoDup_ListNoDup.
  apply NoDup_remove_dups.
Qed.

Lemma stage_getParams_keys decl id vals :
  map fst (stage_getParams decl id vals) = st_public (decl id).
Proof.
  unfold stage_getParams.
  assert (H : forall f, In f (st_public (decl id)) -> mem f (st_fields (decl id)) = true)
    by (intros f Hf; apply public_field in Hf as [_ Hf]; apply mem_In; exact Hf).
  induction (st_public (decl id)) as [|f L IH]; [reflexivity|].
  simpl. rewrite map_app, IH by (intros g Hg; apply H; right; exact Hg).
  specialize (H f (or_introl eq_refl)). rewrite mem_fields in H. unfold getParam.
  destruct (mem f (st_extra (decl id))), (mem f (st_params (decl id))); try discriminate;
    reflexivity.
Qed.

Lemma dict_set_keys {A} k (v : A) d :
  map fst (dict_set k v d) = if existsb (fun kv => String.eqb k kv.1) d
                             then map fst d else map fst d ++ [k].
Proof.
  unfold dict_set. destruct (existsb _ d); [|rewrite map_app; reflexivity].
  rewrite map_map. apply map_ext. intros [k0 v0]. simpl.
  destruct (String.eqb k k0); reflexivity.
Qed.

Lemma existsb_key {A} k (d : list (string * A)) :
  existsb (fun kv => String.eqb k kv.1) d = true <-> In k (map fst d).
Proof.
  rewrite existsb_exists, in_map_iff. split.
  - intros ([k0 v0] & H & E). apply String.eqb_eq in E. simpl in E.
    exists (k0, v0). split; [simpl; congruence|exact H].
  - intros ([k0 v0] & E & H). simpl in E.
    exists (k0, v0). split; [exact H|simpl; apply String.eqb_eq; congruence].
Qed.

Lemma dict_fold_keys {A} (L : list (string * A)) : forall d,
  NoDup (map fst d) ->
  NoDup (map fst (foldl (fun d kv => dict_set kv.1 kv.2 d) d L)) /\
  (forall k, In k (map fst (foldl (fun d kv => dict_set kv.1 kv.2 d) d L)) <->
             In k (map fst d) \/ In k (map fst L)).
Proof.
  induction L as [|[k v] L IH]; intros d Hd; simpl.
  - split; [exact Hd|]. intros k. tauto.
  - assert (Hd' : NoDup (map fst (dict_set k v d))).
    { rewrite dict_set_keys. destruct (existsb _ d) eqn:E; [exact Hd|].
      apply NoDup_app. split; [exact Hd|]. split; [|apply NoDup_singleton].
      intros x Hx Hk. apply list_elem_of_singleton in Hk. subst x.
      apply list_elem_of_In, existsb_key in Hx. congruence. }
    destruct (IH _ Hd') as [H1 H2]. split; [exact H1|].
    intros k'. rewrite H2, dict_set_keys.
    destruct (existsb _ d) eqn:E.
    + apply existsb_key in E. split; [tauto|].
      intros [H|[<-|H]]; auto.
    + rewrite in_app_iff. simpl. split; [intros [[H|[<-|[]]]|H]; auto|].
      intros [H|[<-|H]]; auto.
Qed.

Lemma dict_of_keys {A} (L : list (string * A)) :
  NoDup (map fst (dict_of L)) /\
  (forall k, In k (map fst (dict_of L)) <-> In k (map fst L)).
Proof.
  destruct (dict_fold_keys L [] (NoDup_nil_2)) as [H1 H2]. split; [exact H1|].
  intros k. unfold dict_of. rewrite H2. simpl. tauto.
Qed.

(** [Pipeline.getParams]: the keys are distinct; every entry is
    ["{stage}__{param}"] for a stage of the pipeline and one of its public
    parameters, with that parameter's current value; and every such key is
    present. *)
Theorem pipeline_getParams_spec decl p vals :
  NoDup (map fst (pipeline_getParams decl p vals)) /\
  (forall k v, In (k, v) (pipeline_getParams decl p vals) ->
     exists sn id f, In (sn, id) (stageList p) /\ k = sn +:+ "__" +:+ f /\
                     In f (st_public (decl id)) /\ v = vals id f) /\
  (forall sn id f, In (sn, id) (stageList p) -> In f (st_public (decl id)) ->
     In (sn +:+ "__" +:+ f) (map fst (pipeline_getParams decl p vals))).
Proof.
  unfold pipeline_getParams.
  destruct (dict_of_keys (flat_map (fun '(sn, id) =>
                       map (fun '(f, v) => (sn +:+ "__" +:+ f, v))
                           (stage_getParams decl id vals)) (stageList p))) as [Hnd Hk].
  split; [exact Hnd|]. split.
  - intros k v H. apply dict_of_In in H as (L1 & L2 & HL & _).
    assert (Hin : In (k, v) (flat_map (fun '(sn, id) =>
                       map (fun '(f, v) => (sn +:+ "__" +:+ f, v))
                           (stage_getParams decl id vals)) (stageList p)))
      by (rewrite HL; apply in_or_app; right; left; reflexivity).
    apply in_flat_map in Hin as ([sn id] & Hs & Hm).
    apply in_map_iff in Hm as ([f v'] & Heq & Hg). injection Heq as <- <-.
    apply stage_getParams_In in Hg as [Hf ->].
    exists sn, id, f. auto.
  - intros sn id f Hs Hf. apply Hk. apply in_map_iff.
    exists (sn +:+ "__" +:+ f, vals id f). split; [reflexivity|].
    apply in_flat_map. exists (sn, id). split; [exact Hs|].
    apply in_map_iff. exists (f, vals id f). split; [reflexivity|].
    apply stage_getParams_complete. exact Hf.
Qed.

Lemma alookup_None {A} k (d : list (string * A)) : alookup k d = None <-> ~ In k (map fst d).
Proof.
  induction d as [|[k0 v0] d IH]; simpl; [tauto|].
  destruct (String.eqb_spec k k0) as [->|Hne]; [split; [discriminate|tauto]|].
  rewrite IH. split; [intros H [H1|H1]; [congruence|tauto]|tauto].
Qed.

Lemma alookup_map_set {A} k k' (v : A) d :
  alookup k (map (fun kv => if String.eqb k' kv.1 then (kv.1, v) else kv) d) =
  if String.eqb k k' then match alookup k d with Some _ => Some v | None => None end
  else alookup k d.
Proof.
  induction d as [|[k0 v0] d IH]; simpl; [destruct (String.eqb k k'); reflexivity|].
  rewrite IH.
  repeat (match goal with
          | |- context [String.eqb ?a ?b] => destruct (String.eqb_spec a b); subst
          end; simpl); congruence.
Qed.

Lemma alookup_dict_set {A} k k' (v : A) d :
  alookup k (dict_set k' v d) = if String.eqb k k' then Some v else alookup k d.
Proof.
  unfold dict_set. destruct (existsb (fun kv => String.eqb k' kv.1) d) eqn:E.
  - apply existsb_key in E. rewrite alookup_map_set.
    destruct (String.eqb_spec k k') as [->|Hne]; [|reflexivity].
    destruct (alookup k' d) eqn:El; [reflexivity|].
    apply alookup_None in El. contradiction.
  - assert (Hn : ~ In k' (map fst d)) by (rewrite <- existsb_key; congruence).
    clear E. induction d as [|[k0 v0] d IH]; simpl in *.
    + destruct (String.eqb k k'); reflexivity.
    + destruct (String.eqb_spec k k0) as [->|Hne].
      * rewrite (proj2 (String.eqb_neq k0 k')) by tauto. reflexivity.
      * apply IH. tauto.
Qed.

Lemma uniqueNames_ids decl L : forall nc, map snd (uniqueNames decl nc L) = map snd L.
Proof.
  induction L as [|[n id] L IH]; intros nc; simpl; [reflexivity|].
  destruct (alookup n nc); simpl; rewrite IH; reflexivity.
Qed.

Lemma uniqueNames_first decl nm id L2 L1 : forall nc,
  alookup nm nc = None -> ~ In nm (map fst L1) ->
  exists M1 M2, uniqueNames decl nc (L1 ++ (nm, id) :: L2) = M1 ++ (nm, id) :: M2 /\
                length M1 = length L1.
Proof.
  induction L1 as [|[n0 i0] L1 IH]; intros nc Hnc Hn; simpl.
  - rewrite Hnc. exists [], (uniqueNames decl (dict_set nm 1 nc) L2). auto.
  - simpl in Hn.
    assert (Hne : String.eqb nm n0 = false) by (apply String.eqb_neq; intros ->; tauto).
    destruct (alookup n0 nc) as [c|].
    + destruct (IH (dict_set n0 (c + 1) nc)) as (M1 & M2 & E & Hl);
        [rewrite alookup_dict_set, Hne; exact Hnc|tauto|].
      rewrite E. eexists (_ :: M1), M2. split; [reflexivity|simpl; lia].
    + destruct (IH (dict_set n0 1 nc)) as (M1 & M2 & E & Hl);
        [rewrite alookup_dict_set, Hne; exact Hnc|tauto|].
      rewrite E. eexists (_ :: M1), M2. split; [reflexivity|simpl; lia].
Qed.

Lemma Pipeline_init_ids decl stages :
  map snd (stageList (Pipeline_init decl stages)) = map stageArg_id stages.
Proof.
  change (Pipeline_init decl stages) with
    (mkPipeline (uniqueNames decl [] (map (stageArg_entry decl) stages))). simpl.
  rewrite uniqueNames_ids, map_map. apply map_ext. intros []; reflexivity.
Qed.

(** [Pipeline.__init__] keeps the stages in the order given, and a stage
    whose name (its explicit name, or its class's [name]) was not used by
    an earlier element keeps that name, at its own position. *)
Theorem Pipeline_init_stages decl stages :
  map snd (stageList (Pipeline_init decl stages)) = map stageArg_id stages /\
  (forall L1 a L2, stages = L1 ++ a :: L2 ->
     ~ In (stageArg_entry decl a).1 (map (fun b => (stageArg_entry decl b).1) L1) ->
     exists M1 M2, stageList (Pipeline_init decl stages) = M1 ++ stageArg_entry decl a :: M2 /\
                   length M1 = length L1).
Proof.
  change (Pipeline_init decl stages) with
    (mkPipeline (uniqueNames decl [] (map (stageArg_entry decl) stages))). simpl.
  split.
  - rewrite uniqueNames_ids, map_map. apply map_ext. intros []; reflexivity.
  - intros L1 a L2 -> Hn. rewrite map_app. simpl.
    destruct (stageArg_entry decl a) as [nm id] eqn:Ea. simpl in Hn.
    destruct (uniqueNames_first decl nm id (map (stageArg_entry decl) L2)
                (map (stageArg_entry decl) L1) [] eq_refl) as (M1 & M2 & E & Hl);
      [rewrite map_map; exact Hn|].
    exists M1, M2. rewrite E, length_map in *. auto.
Qed.

Lemma foldl_insert_notin (L : list (string * nat)) : forall (m : gmap string nat) s,
  ~ In s (map fst L) -> foldl (fun m '(n, id) => <[n := id]> m) m L !! s = m !! s.
Proof.
  induction L as [|[n i0] L IH]; intros m s Hn; simpl in *; [reflexivity|].
  rewrite IH by tauto. apply lookup_insert_ne. intros ->. tauto.
Qed.

(** [self._stageDict[name]] is the stage of the last entry of the stage
    list with that name: a later stage with the same name replaces an
    earlier one. *)
Theorem stageDict_lookup p sn id :
  stageDict p !! sn = Some id <->
  exists L1 L2, stageList p = L1 ++ (sn, id) :: L2 /\ ~ In sn (map fst L2).
Proof.
  unfold stageDict. generalize (stageList p) as L. intros L. split.
  - induction L as [|[n i0] L IH] using rev_ind; intros H.
    + simpl in H. rewrite lookup_empty in H. discriminate.
    + rewrite foldl_app in H. simpl in H.
      destruct (String.eq_dec n sn) as [->|Hne].
      * rewrite lookup_insert_eq in H. injection H as ->.
        exists L, []. split; [reflexivity|simpl; tauto].
      * rewrite lookup_insert_ne in H by exact Hne.
        destruct (IH H) as (L1 & L2 & -> & Hn).
        exists L1, (L2 ++ [(n, i0)]). rewrite <- app_assoc. split; [reflexivity|].
        rewrite map_app, in_app_iff. simpl. intros [H'|[H'|[]]]; [tauto|congruence].
  - intros (L1 & L2 & -> & Hn). rewrite foldl_app. simpl.
    rewrite foldl_insert_notin by exact Hn. apply lookup_insert_eq.
Qed.

(** [name.split("__", 1)] on a key of [Pipeline.setParams] gives [(sn, f)]
    exactly when the key is ["{sn}__{f}"] and [sn] is a stage name that
    neither contains ["__"] nor ends in ["_"]: the split is at the first
    ["__"]. *)
Theorem split_once_spec k sn f :
  split_once k = Some (sn, f) <-> k = sn +:+ "__" +:+ f /\ has_sep (sn +:+ "_") = false.
Proof.
  split; [|intros [-> H]; apply split_key; exact H].
  revert sn. induction k as [|c rest IH]; intros sn H; [discriminate|].
  destruct rest as [|c' rest']; [discriminate|].
  rewrite split_once_cons in H.
  destruct (Ascii.eqb c "_"%char && Ascii.eqb c' "_"%char) eqn:Ec.
  - injection H as <- <-. apply andb_true_iff in Ec as [E1 E2].
    apply Ascii.eqb_eq in E1, E2. subst. split; reflexivity.
  - destruct (split_once (String c' rest')) as [[a b]|] eqn:Es; [|discriminate].
    injection H as <- <-. destruct (IH a eq_refl) as [Hr Ha].
    split; [simpl; rewrite Hr; reflexivity|].
    destruct a as [|a0 a'].
    + simpl in Hr. injection Hr as <- _.
      change (has_sep (String c (String c' EmptyString)) = false).
      rewrite has_sep_cons, Ec. reflexivity.
    + simpl in Hr. injection Hr as <- _.
      change (has_sep (String c (String c' (a' +:+ "_"))) = false).
      rewrite has_sep_cons, Ec. exact Ha.
Qed.

Lemma runPipeline_eq {Cmd} (stage_run : nat -> nat -> list Cmd) stages i update :
  runPipeline stage_run stages i update =
  (if update then map (fun a => EUpdate (stageArg_id a) i) stages else []) ++
  [ESubmit (concat (map (fun a => stage_run (stageArg_id a) i) stages)); EWait].
Proof.
  unfold runPipeline.
  match goal with |- context [foldl ?g ([], []) stages] => set (F := g) end.
  assert (H : forall effs cmds,
             foldl F (effs, cmds) stages =
             (effs ++ (if update then map (fun a => EUpdate (stageArg_id a) i) stages else []),
              cmds ++ concat (map (fun a => stage_run (stageArg_id a) i) stages))).
  { induction stages as [|a stages IH]; intros effs cmds; simpl.
    - destruct update; rewrite !app_nil_r; reflexivity.
    - rewrite IH. destruct update; rewrite <- !app_assoc; destruct a; reflexivity. }
  rewrite H. reflexivity.
Qed.

(** For a configuration [i] of [0, 1], [runPipeline(stages, i,
    update=update)] does what building [Pipeline(stages)] and calling its
    [run(i, update=update)] does: the same stage updates in the same
    order, one submission of the same commands, and a wait; neither
    raises. *)
Theorem runPipeline_as_Pipeline_run {Cmd} decl (stage_run : nat -> nat -> list Cmd)
    stages i update :
  i < 2 ->
  pipeline_run stage_run (Pipeline_init decl stages) i update =
  (runPipeline stage_run stages i update, None).
Proof.
  intros Hi. rewrite runPipeline_eq. unfold pipeline_run, runAsync, getSubroutine.
  rewrite (proj2 (Nat.ltb_lt i 2) Hi).
  assert (Hs : map snd (stageList (Pipeline_init decl stages)) = map stageArg_id stages)
    by apply Pipeline_init_ids.
  assert (Hu : pipeline_update (Cmd:=Cmd) (Pipeline_init decl stages) i =
               map (fun a => EUpdate (stageArg_id a) i) stages).
  { unfold pipeline_update. rewrite <- (map_map stageArg_id (fun id => EUpdate id i)), <- Hs.
    rewrite map_map. apply map_ext. intros []; reflexivity. }
  assert (Hc : concat (map (fun '(_, id) => stage_run id i) (stageList (Pipeline_init decl stages)))
               = concat (map (fun a => stage_run (stageArg_id a) i) stages)).
  { rewrite <- (map_map stageArg_id (fun id => stage_run id i)), <- Hs.
    rewrite map_map. f_equal. apply map_ext. intros []; reflexivity. }
  rewrite Hc, <- app_assoc. destruct update; [rewrite Hu|]; reflexivity.
Qed.

Definition demo_run (id i : nat) : list nat := [id; i].

Lemma runPipeline_as_Pipeline_run_witness :
  pipeline_run demo_run (Pipeline_init (fun _ => mkStage "stage" [] []) [Bare 0; Bare 1; Named "x" 2]) 1 true
  = ([EUpdate 0 1; EUpdate 1 1; EUpdate 2 1; ESubmit [0; 1; 1; 1; 2; 1]; EWait], None).
Proof.
  rewrite (runPipeline_as_Pipeline_run (fun _ => mkStage "stage" [] []) demo_run
             [Bare 0; Bare 1; Named "x" 2] 1 true) by lia.
  reflexivity.
Defined.

(** [runPipelineStage(stage, i, update=update)] is [runPipeline([stage], i,
    update=update)]. *)
Theorem runPipelineStage_as_runPipeline {Cmd} (stage_run : nat -> nat -> list Cmd) id i update :
  runPipelineStage stage_run id i update = runPipeline stage_run [Bare id] i update.
Proof.
  rewrite runPipeline_eq. unfold runPipelineStage. simpl. rewrite app_nil_r.
  destruct update; reflexivity.
Qed.

(** [_unpackTask] accepts exactly four shapes: a dict; [(name, dict)];
    [(dict, args)] for any [args]; and [(name, dict, args)]; the name is
    [""] and the arguments [None] where the shape has none.  The
    parameters are always a dict. *)
Theorem _unpackTask_spec t nm p a :
  _unpackTask t = Some (nm, p, a) <->
  exists o, p = PyDict o /\
    (t = p /\ nm = "" /\ a = PyNone \/
     t = PyTuple [PyStr nm; p] /\ a = PyNone \/
     t = PyTuple [p; a] /\ nm = "" \/
     t = PyTuple [PyStr nm; p; a]).
Proof.
  split.
  - destruct t as [| | |o|items]; simpl; try discriminate.
    + intros H. injection H as <- <- <-. exists o. auto.
    + destruct items as [|i1 [|i2 [|i3 [|]]]]; try discriminate;
        destruct i1; try discriminate; try (destruct i2; try discriminate);
        intros H; injection H as <- <- <-; eexists; split; try reflexivity; auto 10.
  - intros (o & -> & [(-> & -> & ->)|[(-> & ->)|[(-> & ->) | ->]]]); reflexivity.
Qed.
